(** * TreeStore: an index over a flat list of parent-linked items

    Shallow embedding of [solution.py] (class [TreeStore]) and the
    properties of its construction and of its four queries.

    Python values are modelled by [pyval], items by the record [item],
    the insertion-ordered [dict] by an association list ([Dict]), a
    [defaultdict(list)] by a [Dict] whose missing keys are created on
    read, exceptions by [exn], and the unbounded [while] loop of
    [_calculateParents] by a fuel-indexed function. *)

From Stdlib Require Import List ZArith String Bool Lia Relations.
From Stdlib Require Import DecimalString DecimalZ DecimalPos.
Import ListNotations.

Local Open Scope string_scope.
Local Open Scope list_scope.

(** ** Python values used as identifiers and field values *)

Inductive pyval : Type :=
| VInt (z : Z)
| VStr (s : string)
| VNone.

Definition pyval_eq_dec (a b : pyval) : {a = b} + {a <> b}.
Proof.
  decide equality; [apply Z.eq_dec | apply string_dec].
Defined.

(** Python's [==] on the hashable values above. *)
Definition pyval_eqb (a b : pyval) : bool :=
  match a, b with
  | VInt x, VInt y => Z.eqb x y
  | VStr s, VStr t => String.eqb s t
  | VNone, VNone => true
  | _, _ => false
  end.

(** The sentinel compared against in [while parent != "root"]. *)
Definition root : pyval := VStr "root".

(** An item: the two keys the code reads, and every other key of the
    dictionary, carried along untouched. *)
Record item : Type := mkItem {
  id : pyval;
  parent : pyval;
  fields : list (string * pyval)
}.

Definition item_eq_dec (a b : item) : {a = b} + {a <> b}.
Proof.
  decide equality; try apply pyval_eq_dec.
  apply list_eq_dec.
  decide equality; [apply pyval_eq_dec | apply string_dec].
Defined.

(** ** Exceptions and outcomes *)

Inductive exn : Type :=
| IdNotFoundError (ID : pyval)
| KeyError (key : pyval).

(** Result of a call: a value, or a raised exception. *)
Inductive result (A : Type) : Type :=
| Ok (a : A)
| Raise (e : exn).
Arguments Ok {A} a.
Arguments Raise {A} e.

(** Result of code containing the [while] loop, run with a bound on the
    number of evaluations of the loop condition. *)
Inductive outcome (A : Type) : Type :=
| Done (a : A)
| Fail (e : exn)
| OutOfFuel.
Arguments Done {A} a.
Arguments Fail {A} e.
Arguments OutOfFuel {A}.

(** ** Insertion-ordered dictionaries with [pyval] keys *)

Module Dict.
Section Dict.
Context {V : Type}.

Definition t := list (pyval * V).

Definition empty : t := [].

(** [d[k]] for a plain dict: [None] stands for [KeyError]. *)
Fixpoint get (d : t) (k : pyval) : option V :=
match d with
| [] => None
| (k', v) :: d' => if pyval_eqb k' k then Some v else get d' k
end.

(** [d[k] = v]: an existing key keeps its position, a new one goes
  last. *)
Fixpoint set (d : t) (k : pyval) (v : V) : t :=
match d with
| [] => [(k, v)]
| (k', v') :: d' =>
    if pyval_eqb k' k then (k', v) :: d'
    else (k', v') :: set d' k v
end.

(** [k in d] *)
Definition contains (d : t) (k : pyval) : bool :=
match get d k with Some _ => true | None => false end.

(** Iteration order of [for key in d]. *)
Definition keys (d : t) : list pyval := map fst d.

End Dict.
Arguments t : clear implicits.
End Dict.

(** ** [defaultdict(list)] *)

Module DefaultDict.
Section DefaultDict.
Context {A : Type}.

Definition t := Dict.t (list A).

(** [d[k]] on a [defaultdict(list)]: a missing key is first bound to
  a fresh empty list ([__missing__]); returns the dictionary after
  the access and the list read. *)
Definition getitem (d : t) (k : pyval) : t * list A :=
match Dict.get d k with
| Some l => (d, l)
| None => (Dict.set d k [], [])
end.

(** [d[k].append(x)] *)
Definition append (d : t) (k : pyval) (x : A) : t :=
let (d', l) := getitem d k in Dict.set d' k (l ++ [x]).

(** The list a read of [d[k]] would return. *)
Definition lookup (d : t) (k : pyval) : list A :=
match Dict.get d k with Some l => l | None => [] end.

End DefaultDict.
Arguments t : clear implicits.
End DefaultDict.

(** ** The class [TreeStore] *)

Record TreeStore : Type := mkTreeStore {
  items : list item;
  itemId : Dict.t item;
  parentChild : DefaultDict.t item;
  idAllParents : DefaultDict.t item
}.

(** Body of the [for item in items] loop of [_createDictsForItems]. *)
Definition createDicts_step
  (st : Dict.t item * DefaultDict.t item) (it : item)
  : Dict.t item * DefaultDict.t item :=
  let identification := id it in
  let parent := parent it in
  (Dict.set (fst st) identification it,
   DefaultDict.append (snd st) parent it).

Definition _createDictsForItems (items : list item)
  : Dict.t item * DefaultDict.t item :=
  fold_left createDicts_step items (Dict.empty, Dict.empty).

(** The [while parent != "root"] loop of [_calculateParents], for the
    outer-loop variable [key]; [parent] is the loop variable and
    [idAllParents] the dictionary being filled.  [fuel] bounds the
    number of evaluations of the loop condition. *)
Fixpoint while_loop (fuel : nat) (itemId : Dict.t item) (key : pyval)
  (parent_ : pyval) (idAllParents : DefaultDict.t item)
  : outcome (DefaultDict.t item) :=
  match fuel with
  | O => OutOfFuel
  | S fuel' =>
      if pyval_eqb parent_ root then Done idAllParents
      else
        match Dict.get itemId parent_ with
        | None => Fail (KeyError parent_)
        | Some p =>
            let idAllParents' := DefaultDict.append idAllParents key p in
            let ID := parent_ in
            match Dict.get itemId ID with
            | None => Fail (KeyError ID)
            | Some i =>
                while_loop fuel' itemId key (parent i) idAllParents'
            end
        end
  end.

(** The [for key in itemId] loop of [_calculateParents] over the keys
    still to visit. *)
Fixpoint for_keys (fuel : nat) (itemId : Dict.t item)
  (ks : list pyval) (idAllParents : DefaultDict.t item)
  : outcome (DefaultDict.t item) :=
  match ks with
  | [] => Done idAllParents
  | key :: ks' =>
      let ID := key in
      match Dict.get itemId ID with
      | None => Fail (KeyError ID)
      | Some i =>
          match while_loop fuel itemId key (parent i) idAllParents with
          | Done idAllParents' => for_keys fuel itemId ks' idAllParents'
          | Fail e => Fail e
          | OutOfFuel => OutOfFuel
          end
      end
  end.

Definition _calculateParents (fuel : nat) (itemId : Dict.t item)
  : outcome (DefaultDict.t item) :=
  for_keys fuel itemId (Dict.keys itemId) Dict.empty.

(** [TreeStore.__init__] *)
Definition TreeStore_init (fuel : nat) (items : list item)
  : outcome TreeStore :=
  let (itemId, parentChild) := _createDictsForItems items in
  match _calculateParents fuel itemId with
  | Done idAllParents =>
      Done (mkTreeStore items itemId parentChild idAllParents)
  | Fail e => Fail e
  | OutOfFuel => OutOfFuel
  end.

(** *** Queries: each returns its result and the store after the call *)

Definition getAll (self : TreeStore) : result (list item) * TreeStore :=
  (Ok (items self), self).

Definition getItem (self : TreeStore) (ID : pyval)
  : result item * TreeStore :=
  if negb (Dict.contains (itemId self) ID) then
    (Raise (IdNotFoundError ID), self)
  else
    match Dict.get (itemId self) ID with
    | Some i => (Ok i, self)
    | None => (Raise (KeyError ID), self)
    end.

Definition getChildren (self : TreeStore) (ID : pyval)
  : result (list item) * TreeStore :=
  if negb (Dict.contains (itemId self) ID) then
    (Raise (IdNotFoundError ID), self)
  else
    let (parentChild', l) := DefaultDict.getitem (parentChild self) ID in
    (Ok l,
     mkTreeStore (items self) (itemId self) parentChild'
       (idAllParents self)).

Definition getAllParents (self : TreeStore) (ID : pyval)
  : result (list item) * TreeStore :=
  if negb (Dict.contains (itemId self) ID) then
    (Raise (IdNotFoundError ID), self)
  else
    let (idAllParents', l) :=
      DefaultDict.getitem (idAllParents self) ID in
    (Ok l,
     mkTreeStore (items self) (itemId self) (parentChild self)
       idAllParents').

(** A query and its answer, to speak about sequences of calls. *)
Inductive query : Type :=
| QGetAll
| QGetItem (ID : pyval)
| QGetChildren (ID : pyval)
| QGetAllParents (ID : pyval).

Inductive answer : Type :=
| AItem (r : result item)
| AList (r : result (list item)).

Definition run_query (q : query) (self : TreeStore)
  : answer * TreeStore :=
  match q with
  | QGetAll => let (r, s) := getAll self in (AList r, s)
  | QGetItem ID => let (r, s) := getItem self ID in (AItem r, s)
  | QGetChildren ID =>
      let (r, s) := getChildren self ID in (AList r, s)
  | QGetAllParents ID =>
      let (r, s) := getAllParents self ID in (AList r, s)
  end.

(** The store after a sequence of query calls. *)
Definition run_queries (qs : list query) (self : TreeStore) : TreeStore :=
  fold_left (fun s q => snd (run_query q s)) qs self.

(** ** The reference scenario of the test functions *)

Definition test_items : list item :=
  [ mkItem (VInt 1) root [];
    mkItem (VInt 2) (VInt 1) [("type", VStr "test")];
    mkItem (VInt 3) (VInt 1) [("type", VStr "test")];
    mkItem (VInt 4) (VInt 2) [("type", VStr "test")];
    mkItem (VInt 5) (VInt 2) [("type", VStr "test")];
    mkItem (VInt 6) (VInt 2) [("type", VStr "test")];
    mkItem (VInt 7) (VInt 4) [("type", VNone)];
    mkItem (VInt 8) (VInt 4) [("type", VNone)] ].

(** A malformed input: the same id twice. *)
Definition dup_items : list item :=
  [ mkItem (VInt 1) root [("type", VStr "old")];
    mkItem (VInt 2) (VInt 1) [];
    mkItem (VInt 1) root [("type", VStr "new")] ].

(** Malformed inputs: a cycle, a parent that is no item's id, and an
    item whose id is the sentinel. *)
Definition cyclic_items : list item :=
  [ mkItem (VInt 1) (VInt 2) []; mkItem (VInt 2) (VInt 1) [] ].

Definition dangling_items : list item :=
  [ mkItem (VInt 1) (VInt 9) [] ].

Definition sentinel_id_items : list item :=
  [ mkItem root root [] ].

(** A root item, and an item whose id is the sentinel. *)
Definition sentinel_child_items : list item :=
  [ mkItem (VInt 1) root []; mkItem root (VInt 1) [] ].

(** ** Data Model invariants *)

(** All [id] values of the input sequence are different. *)
Definition unique_ids (its : list item) : Prop :=
  NoDup (map id its).

(** Every parent value is the sentinel or the id of another item of
    the sequence. *)
Definition no_dangling (its : list item) : Prop :=
  forall it, In it its ->
    parent it = root \/
    exists p, In p its /\ p <> it /\ id p = parent it.

(** [parent_link its c p]: some item with id [c] names [p], which is
    not the sentinel, as its parent. *)
Definition parent_link (its : list item) (c p : pyval) : Prop :=
  exists it, In it its /\ id it = c /\ parent it = p /\ p <> root.

(** No id reaches itself by following one or more non-root links. *)
Definition acyclic (its : list item) : Prop :=
  forall x, ~ clos_trans pyval (parent_link its) x x.

(** The sentinel is not the id of any item. *)
Definition sentinel_fresh (its : list item) : Prop :=
  forall it, In it its -> id it <> root.

Record valid (its : list item) : Prop := mkValid {
  valid_unique : unique_ids its;
  valid_no_dangling : no_dangling its;
  valid_acyclic : acyclic its;
  valid_sentinel : sentinel_fresh its
}.

(** A checkable sufficient condition for [acyclic]: a measure on ids
    that every non-root link decreases. *)
Definition ranked_by (rank : pyval -> nat) (its : list item) : bool :=
  forallb
    (fun it =>
       pyval_eqb (parent it) root
       || Nat.ltb (rank (parent it)) (rank (id it)))
    its.

(** A checkable form of [no_dangling]. *)
Definition no_danglingb (its : list item) : bool :=
  forallb
    (fun it =>
       pyval_eqb (parent it) root
       || existsb
            (fun p =>
               negb (if item_eq_dec p it then true else false)
               && pyval_eqb (id p) (parent it))
            its)
    its.

Definition sentinel_freshb (its : list item) : bool :=
  forallb (fun it => negb (pyval_eqb (id it) root)) its.

(** A checkable form of [unique_ids]. *)
Fixpoint distinctb (l : list pyval) : bool :=
  match l with
  | [] => true
  | k :: l' => negb (existsb (pyval_eqb k) l') && distinctb l'
  end.

Definition unique_idsb (its : list item) : bool := distinctb (map id its).

Definition validb (rank : pyval -> nat) (its : list item) : bool :=
  unique_idsb its && no_danglingb its && ranked_by rank its
  && sentinel_freshb its.

(** The rank used for the reference scenario: the integer id. *)
Definition int_rank (v : pyval) : nat :=
  match v with VInt z => Z.to_nat z | _ => 0 end.

(** ** Specification-level notions *)

(** [ancestor_chain its p l]: [l] lists the items met when following
    parent references from the reference [p] up to the sentinel. *)
Inductive ancestor_chain (its : list item) : pyval -> list item -> Prop :=
| chain_root : ancestor_chain its root []
| chain_step p it l :
    p <> root -> In it its -> id it = p ->
    ancestor_chain its (parent it) l ->
    ancestor_chain its p (it :: l).

(** The items appended by [while_loop], as a function of the
    dictionary and the first parent reference alone. *)
Fixpoint walk (fuel : nat) (d : Dict.t item) (p : pyval)
  : outcome (list item) :=
  match fuel with
  | O => OutOfFuel
  | S fuel' =>
      if pyval_eqb p root then Done []
      else
        match Dict.get d p with
        | None => Fail (KeyError p)
        | Some it =>
            match walk fuel' d (parent it) with
            | Done l => Done (it :: l)
            | Fail e => Fail e
            | OutOfFuel => OutOfFuel
            end
        end
  end.

(** Links as the id mapping sees them. *)
Definition dict_link (d : Dict.t item) (c p : pyval) : Prop :=
  exists it, Dict.get d c = Some it /\ parent it = p /\ p <> root.

(** Two stores that no query tells apart: same item list, same id
    mapping, and the two [defaultdict]s read the same at every key. *)
Definition store_equiv (s s' : TreeStore) : Prop :=
  items s = items s' /\
  itemId s = itemId s' /\
  (forall k, DefaultDict.lookup (parentChild s) k
             = DefaultDict.lookup (parentChild s') k) /\
  (forall k, DefaultDict.lookup (idAllParents s) k
             = DefaultDict.lookup (idAllParents s') k).

Definition item1 : item := mkItem (VInt 1) root [].
Definition item2 : item := mkItem (VInt 2) (VInt 1) [("type", VStr "test")].
Definition item4 : item := mkItem (VInt 4) (VInt 2) [("type", VStr "test")].
Definition item5 : item := mkItem (VInt 5) (VInt 2) [("type", VStr "test")].
Definition item7 : item := mkItem (VInt 7) (VInt 4) [("type", VNone)].
Definition item8 : item := mkItem (VInt 8) (VInt 4) [("type", VNone)].

(** ** The message of [IdNotFoundError] *)

(** [str(v)], as the f-string of [IdNotFoundError.__init__] formats
    the id: decimal digits for an int, the text itself for a string. *)
Definition py_str (v : pyval) : string :=
  match v with
  | VInt z => NilZero.string_of_int (Z.to_int z)
  | VStr s => s
  | VNone => "None"
  end.

(** [self.message] as set by [IdNotFoundError.__init__]. *)
Definition IdNotFoundError_message (ID : pyval) : string :=
  ("Item with id = " ++ py_str ID ++ " not found")%string.

(** The store built from [test_items] (eight loop tests suffice). *)
Definition test_store : TreeStore :=
  match TreeStore_init 8 test_items with
  | Done ts => ts
  | _ => mkTreeStore [] Dict.empty Dict.empty Dict.empty
  end.

(** * Properties *)

(** ** Equality of values *)

Lemma pyval_eqb_eq (a b : pyval) : pyval_eqb a b = true <-> a = b.
Proof.
  destruct a, b; simpl; split; intro H;
    try discriminate; try reflexivity.
  - apply Z.eqb_eq in H. now subst.
  - injection H as ->. apply Z.eqb_refl.
  - apply String.eqb_eq in H. now subst.
  - injection H as ->. apply String.eqb_refl.
Qed.

Lemma pyval_eqb_refl (a : pyval) : pyval_eqb a a = true.
Proof. now apply pyval_eqb_eq. Qed.

Lemma pyval_eqb_neq (a b : pyval) : pyval_eqb a b = false <-> a <> b.
Proof.
  split.
  - intros H E. apply pyval_eqb_eq in E. congruence.
  - intro H. destruct (pyval_eqb a b) eqn:E; [|reflexivity].
    apply pyval_eqb_eq in E. contradiction.
Qed.

Ltac eqb_cases a b :=
  let E := fresh "E" in
  destruct (pyval_eqb a b) eqn:E;
  [apply pyval_eqb_eq in E | apply pyval_eqb_neq in E].

(** ** Dictionaries *)

Module DictFacts.
Section DictFacts.
Context {V : Type}.
Implicit Types (d : Dict.t V) (k : pyval) (v : V).

Lemma get_set_same d k v : Dict.get (Dict.set d k v) k = Some v.
Proof.
induction d as [|[k' v'] d IH]; simpl.
- now rewrite pyval_eqb_refl.
- destruct (pyval_eqb k' k) eqn:E; simpl; now rewrite E.
Qed.

Lemma get_set_other d k k' v :
k <> k' -> Dict.get (Dict.set d k v) k' = Dict.get d k'.
Proof.
intro N. induction d as [|[k0 v0] d IH]; simpl.
- apply pyval_eqb_neq in N. now rewrite N.
- eqb_cases k0 k; simpl.
  + subst k0. apply pyval_eqb_neq in N. now rewrite N.
  + now rewrite IH.
Qed.

Lemma get_Some_keys d k v : Dict.get d k = Some v -> In k (Dict.keys d).
Proof.
induction d as [|[k' v'] d IH]; simpl; [discriminate|].
eqb_cases k' k; [now left | intro H; right; auto].
Qed.

Lemma keys_get d k : In k (Dict.keys d) -> exists v, Dict.get d k = Some v.
Proof.
induction d as [|[k' v'] d IH]; simpl; [contradiction|].
intros [->|H].
- rewrite pyval_eqb_refl. eauto.
- destruct (pyval_eqb k' k); eauto.
Qed.

Lemma get_None_keys d k : Dict.get d k = None -> ~ In k (Dict.keys d).
Proof.
intros H I. apply keys_get in I as [v I]. congruence.
Qed.

Lemma keys_set_present d k v v0 :
Dict.get d k = Some v0 -> Dict.keys (Dict.set d k v) = Dict.keys d.
Proof.
unfold Dict.keys.
induction d as [|[k' v'] d IH]; simpl; [discriminate|].
destruct (pyval_eqb k' k); simpl; [reflexivity|].
intro H. f_equal. auto.
Qed.

Lemma keys_set_absent d k v :
Dict.get d k = None -> Dict.keys (Dict.set d k v) = Dict.keys d ++ [k].
Proof.
unfold Dict.keys.
induction d as [|[k' v'] d IH]; simpl; [reflexivity|].
destruct (pyval_eqb k' k); simpl; [discriminate|].
intro H. f_equal. auto.
Qed.

Lemma NoDup_keys_set d k v :
NoDup (Dict.keys d) -> NoDup (Dict.keys (Dict.set d k v)).
Proof.
intro H. destruct (Dict.get d k) eqn:G.
- now rewrite (keys_set_present _ _ _ _ G).
- rewrite (keys_set_absent _ _ _ G).
  apply NoDup_app; repeat split; auto.
  + constructor; [intros []|constructor].
  + intros x Hx [<-|[]]. now apply get_None_keys in G.
Qed.

Lemma length_set d k v :
List.length (Dict.set d k v) <= S (List.length d).
Proof.
induction d as [|[k' v'] d IH]; simpl; [lia|].
destruct (pyval_eqb k' k); simpl; lia.
Qed.

Lemma contains_true d k :
Dict.contains d k = true <-> exists v, Dict.get d k = Some v.
Proof.
unfold Dict.contains. destruct (Dict.get d k) as [v|]; split; eauto.
- discriminate.
- intros [v H]; discriminate.
Qed.

End DictFacts.
End DictFacts.

(** ** [defaultdict(list)] *)

Module DefaultDictFacts.
Import DictFacts.
Section DefaultDictFacts.
Context {A : Type}.
Implicit Types (d : DefaultDict.t A) (k : pyval).

Lemma getitem_value d k :
snd (DefaultDict.getitem d k) = DefaultDict.lookup d k.
Proof.
unfold DefaultDict.getitem, DefaultDict.lookup.
now destruct (Dict.get d k).
Qed.

(** Reading a missing key adds it, but no read sees a difference. *)
Lemma getitem_lookup d k k' :
DefaultDict.lookup (fst (DefaultDict.getitem d k)) k'
= DefaultDict.lookup d k'.
Proof.
unfold DefaultDict.getitem.
destruct (Dict.get d k) eqn:G; simpl; [reflexivity|].
unfold DefaultDict.lookup.
destruct (pyval_eq_dec k k') as [<-|N].
- now rewrite get_set_same, G.
- now rewrite get_set_other.
Qed.

Lemma lookup_append d k x k' :
DefaultDict.lookup (DefaultDict.append d k x) k'
= if pyval_eqb k k' then DefaultDict.lookup d k ++ [x]
  else DefaultDict.lookup d k'.
Proof.
unfold DefaultDict.append.
pose proof (getitem_value d k) as Hv.
pose proof (getitem_lookup d k k') as Hl.
destruct (DefaultDict.getitem d k) as [d' l]; simpl in *.
subst l. unfold DefaultDict.lookup at 1.
eqb_cases k k'.
- subst k'. now rewrite get_set_same.
- rewrite get_set_other by assumption. exact Hl.
Qed.

Lemma lookup_append_all d k (l : list A) k' :
DefaultDict.lookup
  (fold_left (fun a x => DefaultDict.append a k x) l d) k'
= if pyval_eqb k k' then DefaultDict.lookup d k ++ l
  else DefaultDict.lookup d k'.
Proof.
revert d. induction l as [|x l IH]; intro d; simpl.
- destruct (pyval_eqb k k') eqn:E; [|reflexivity].
  apply pyval_eqb_eq in E. subst. now rewrite app_nil_r.
- rewrite IH, !lookup_append, pyval_eqb_refl.
  destruct (pyval_eqb k k'); [|reflexivity].
  now rewrite <- app_assoc.
Qed.

End DefaultDictFacts.
End DefaultDictFacts.

(** ** [_createDictsForItems] *)

Section CreateDicts.
Import DictFacts DefaultDictFacts.

Lemma createDicts_snoc (its : list item) (a : item) :
  _createDictsForItems (its ++ [a])
  = createDicts_step (_createDictsForItems its) a.
Proof.
  unfold _createDictsForItems. now rewrite fold_left_app.
Qed.

(** The id mapping sends [k] to the last item of the input whose id
    is [k]. *)
Lemma itemId_get (its : list item) (k : pyval) :
  Dict.get (fst (_createDictsForItems its)) k
  = find (fun it => pyval_eqb (id it) k) (rev its).
Proof.
  induction its as [|a its IH] using rev_ind; [reflexivity|].
  rewrite createDicts_snoc, rev_app_distr. simpl.
  eqb_cases (id a) k.
  - subst k. apply get_set_same.
  - now rewrite get_set_other.
Qed.

(** The children mapping reads, at [k], the items whose parent is
    [k], in input order. *)
Lemma parentChild_lookup (its : list item) (k : pyval) :
  DefaultDict.lookup (snd (_createDictsForItems its)) k
  = filter (fun it => pyval_eqb (parent it) k) its.
Proof.
  induction its as [|a its IH] using rev_ind; [reflexivity|].
  rewrite createDicts_snoc, filter_app. simpl.
  rewrite lookup_append.
  eqb_cases (parent a) k.
  - subst k. now rewrite IH.
  - now rewrite app_nil_r.
Qed.

Lemma itemId_length (its : list item) :
  List.length (fst (_createDictsForItems its)) <= List.length its.
Proof.
  induction its as [|a its IH] using rev_ind; [simpl; lia|].
  rewrite createDicts_snoc, length_app. simpl.
  pose proof (length_set (fst (_createDictsForItems its)) (id a) a).
  lia.
Qed.

Lemma itemId_keys_NoDup (its : list item) :
  NoDup (Dict.keys (fst (_createDictsForItems its))).
Proof.
  induction its as [|a its IH] using rev_ind; [constructor|].
  rewrite createDicts_snoc. simpl. now apply NoDup_keys_set.
Qed.

Lemma itemId_sound (its : list item) (k : pyval) (it : item) :
  Dict.get (fst (_createDictsForItems its)) k = Some it ->
  In it its /\ id it = k.
Proof.
  rewrite itemId_get. intro H. apply find_some in H as [H1 H2].
  split; [now apply In_rev in H1 | now apply pyval_eqb_eq].
Qed.

Lemma itemId_present (its : list item) (it : item) :
  In it its ->
  exists it', Dict.get (fst (_createDictsForItems its)) (id it) = Some it'.
Proof.
  intro H. rewrite itemId_get.
  destruct (find _ (rev its)) as [it'|] eqn:F; [eauto|].
  apply In_rev in H. apply (find_none _ _ F it) in H.
  now rewrite pyval_eqb_refl in H.
Qed.

Lemma unique_ids_inj (its : list item) (a b : item) :
  unique_ids its -> In a its -> In b its -> id a = id b -> a = b.
Proof.
  unfold unique_ids. induction its as [|c its IH]; simpl; [contradiction|].
  intros N Ha Hb E. inversion N as [|? ? Hc N']; subst.
  destruct Ha as [->|Ha], Hb as [->|Hb]; auto.
  - exfalso. apply Hc. rewrite E. now apply in_map.
  - exfalso. apply Hc. rewrite <- E. now apply in_map.
Qed.

Lemma itemId_complete (its : list item) (it : item) :
  unique_ids its -> In it its ->
  Dict.get (fst (_createDictsForItems its)) (id it) = Some it.
Proof.
  intros U H. destruct (itemId_present its it H) as [it' G].
  rewrite G. f_equal.
  apply itemId_sound in G as [G1 G2].
  now apply (unique_ids_inj its).
Qed.

Lemma contains_itemId (its : list item) (k : pyval) :
  Dict.contains (fst (_createDictsForItems its)) k = true
  <-> exists it, In it its /\ id it = k.
Proof.
  rewrite contains_true. split.
  - intros [it G]. exists it. now apply itemId_sound.
  - intros [it [H <-]]. now apply itemId_present.
Qed.

Lemma find_app_skip {A} (f : A -> bool) (l l' : list A) :
  (forall x, In x l -> f x = false) -> find f (l ++ l') = find f l'.
Proof.
  induction l as [|a l IH]; simpl; intro H; [reflexivity|].
  rewrite (H a) by now left. apply IH. intros; apply H; now right.
Qed.

(** Of the items that share an id, the one occurring last wins. *)
Lemma itemId_last (pre post : list item) (b : item) :
  (forall c, In c post -> id c <> id b) ->
  Dict.get (fst (_createDictsForItems (pre ++ b :: post))) (id b)
  = Some b.
Proof.
  intro H. rewrite itemId_get, rev_app_distr. simpl.
  rewrite <- app_assoc. simpl.
  rewrite find_app_skip.
  - simpl. now rewrite pyval_eqb_refl.
  - intros x Hx. apply In_rev in Hx. apply pyval_eqb_neq. auto.
Qed.

End CreateDicts.

(** ** The ancestor walk of [_calculateParents] *)

Section Walk.
Import DictFacts DefaultDictFacts.

(** The loop appends to [idAllParents[key]] exactly the items
    [walk] lists, and fails or runs on exactly when [walk] does. *)
Lemma while_loop_walk fuel (d : Dict.t item) key p acc :
  while_loop fuel d key p acc
  = match walk fuel d p with
    | Done l =>
        Done (fold_left (fun a x => DefaultDict.append a key x) l acc)
    | Fail e => Fail e
    | OutOfFuel => OutOfFuel
    end.
Proof.
  revert p acc. induction fuel as [|fuel IH]; intros p acc; simpl.
  - reflexivity.
  - destruct (pyval_eqb p root); [reflexivity|].
    destruct (Dict.get d p) as [it|]; [|reflexivity].
    rewrite IH. now destruct (walk fuel d (parent it)).
Qed.

Lemma walk_mono fuel fuel' (d : Dict.t item) p l :
  walk fuel d p = Done l -> fuel <= fuel' -> walk fuel' d p = Done l.
Proof.
  revert fuel' p l.
  induction fuel as [|fuel IH]; intros fuel' p l; simpl; [discriminate|].
  intros H L. destruct fuel' as [|fuel']; [lia|]. simpl.
  destruct (pyval_eqb p root); [assumption|].
  destruct (Dict.get d p) as [it|]; [|discriminate].
  destruct (walk fuel d (parent it)) as [l'| |] eqn:W; try discriminate.
  rewrite (IH fuel' _ _ W) by lia. assumption.
Qed.

Lemma walk_chain (its : list item) fuel (d : Dict.t item) p l :
  (forall k it, Dict.get d k = Some it -> In it its /\ id it = k) ->
  walk fuel d p = Done l -> ancestor_chain its p l.
Proof.
  intro S. revert p l.
  induction fuel as [|fuel IH]; intros p l; simpl; [discriminate|].
  eqb_cases p root.
  - intro H. injection H as <-. subst p. constructor.
  - destruct (Dict.get d p) as [it|] eqn:G; [|discriminate].
    destruct (walk fuel d (parent it)) as [l'| |] eqn:W; try discriminate.
    intro H. injection H as <-.
    destruct (S _ _ G). constructor; auto.
Qed.

Section Termination.
Variable d : Dict.t item.
Hypothesis closed :
  forall k it, Dict.get d k = Some it -> parent it <> root ->
               exists p, Dict.get d (parent it) = Some p.
Hypothesis no_cycle : forall x, ~ clos_trans pyval (dict_link d) x x.

(** [seen] are the distinct ids visited so far, [cur] the last of
    them: every step either stops at the sentinel or visits an id
    not seen before, and there are only [length d] ids. *)
Lemma walk_terminates_from fuel (seen : list pyval) cur itc :
  NoDup seen ->
  (forall s, In s seen -> In s (Dict.keys d)) ->
  (forall s, In s seen ->
             s = cur \/ clos_trans pyval (dict_link d) s cur) ->
  Dict.get d cur = Some itc ->
  List.length d < List.length seen + fuel ->
  exists l, walk fuel d (parent itc) = Done l.
Proof.
  revert seen cur itc.
  induction fuel as [|fuel IH]; intros seen cur itc N K R G L.
  - exfalso.
    pose proof (NoDup_incl_length N K) as B.
    unfold Dict.keys in B. rewrite length_map in B. lia.
  - simpl. eqb_cases (parent itc) root; [eauto|].
    destruct (closed _ _ G E) as [itp Gp]. rewrite Gp.
    assert (step : dict_link d cur (parent itc)) by (exists itc; auto).
    assert (fresh : ~ In (parent itc) seen).
    { intro I. apply (no_cycle cur).
      destruct (R _ I) as [Q|T].
      - rewrite Q in step. now apply t_step.
      - eapply t_trans; [apply t_step; eassumption | assumption]. }
    destruct (IH (parent itc :: seen) (parent itc) itp) as [l W].
    + now constructor.
    + intros s [<-|I]; [eapply get_Some_keys; eassumption | auto].
    + intros s [<-|I]; [now left | right].
      destruct (R _ I) as [Q|T]; [subst s; now apply t_step|].
      eapply t_trans; [eassumption | now apply t_step].
    + assumption.
    + simpl. lia.
    + rewrite W. eauto.
Qed.

Lemma walk_terminates fuel key it :
  Dict.get d key = Some it -> List.length d <= fuel ->
  exists l, walk fuel d (parent it) = Done l.
Proof.
  intros G L.
  apply (walk_terminates_from fuel [key] key it); auto.
  - constructor; [intros []|constructor].
  - intros s [<-|[]]. eapply get_Some_keys; eassumption.
  - intros s [<-|[]]. now left.
  - simpl. lia.
Qed.
End Termination.

(** *** The outer loop *)

Lemma for_keys_done fuel (d : Dict.t item) ks acc :
  (forall k, In k ks ->
     exists it l, Dict.get d k = Some it
                  /\ walk fuel d (parent it) = Done l) ->
  exists r, for_keys fuel d ks acc = Done r.
Proof.
  revert acc. induction ks as [|k ks IH]; intros acc H; simpl; [eauto|].
  destruct (H k) as (it & l & G & W); [now left|].
  rewrite G, while_loop_walk, W. apply IH.
  intros; apply H; now right.
Qed.

Lemma for_keys_lookup fuel (d : Dict.t item) ks acc r :
  NoDup ks -> for_keys fuel d ks acc = Done r ->
  forall k,
    (In k ks ->
       exists it l, Dict.get d k = Some it
                    /\ walk fuel d (parent it) = Done l
                    /\ DefaultDict.lookup r k
                       = DefaultDict.lookup acc k ++ l)
    /\ (~ In k ks -> DefaultDict.lookup r k = DefaultDict.lookup acc k).
Proof.
  revert acc. induction ks as [|k0 ks IH]; intros acc N H k; simpl in *.
  - injection H as <-. split; [contradiction | reflexivity].
  - inversion N as [|? ? Hk0 N']; subst.
    destruct (Dict.get d k0) as [it|] eqn:G; [|discriminate].
    rewrite while_loop_walk in H.
    destruct (walk fuel d (parent it)) as [l| |] eqn:W; try discriminate.
    destruct (IH _ N' H k) as [IH1 IH2].
    split.
    + intros [<-|I].
      * exists it, l. repeat split; auto.
        rewrite (IH2 Hk0), lookup_append_all.
        now rewrite pyval_eqb_refl.
      * destruct (IH1 I) as (it' & l' & G' & W' & Lk).
        exists it', l'. repeat split; auto.
        rewrite Lk, lookup_append_all.
        eqb_cases k0 k; [subst; contradiction | reflexivity].
    + intro NI. rewrite IH2 by tauto. rewrite lookup_append_all.
      eqb_cases k0 k; [subst; tauto | reflexivity].
Qed.

Lemma for_keys_mono fuel fuel' (d : Dict.t item) ks acc r :
  for_keys fuel d ks acc = Done r -> fuel <= fuel' ->
  for_keys fuel' d ks acc = Done r.
Proof.
  revert acc. induction ks as [|k ks IH]; intros acc H L; simpl in *.
  - assumption.
  - destruct (Dict.get d k) as [it|]; [|discriminate].
    rewrite while_loop_walk in *.
    destruct (walk fuel d (parent it)) as [l| |] eqn:W; try discriminate.
    rewrite (walk_mono _ _ _ _ _ W L). auto.
Qed.

End Walk.

(** ** Checking the Data Model invariants *)

Section Checks.

Lemma distinctb_NoDup (l : list pyval) : distinctb l = true -> NoDup l.
Proof.
  induction l as [|k l IH]; simpl; intro H; [constructor|].
  apply andb_prop in H as [H1 H2]. constructor; auto.
  intro I. apply negb_true_iff in H1.
  assert (existsb (pyval_eqb k) l = true); [|congruence].
  apply existsb_exists. exists k. split; [assumption|].
  apply pyval_eqb_refl.
Qed.

Lemma no_danglingb_sound (its : list item) :
  no_danglingb its = true -> no_dangling its.
Proof.
  unfold no_danglingb, no_dangling. intros H it I.
  rewrite forallb_forall in H. specialize (H it I).
  apply orb_prop in H as [H|H].
  - left. now apply pyval_eqb_eq.
  - right. apply existsb_exists in H as (p & Ip & Hp).
    apply andb_prop in Hp as [Hp1 Hp2].
    exists p. repeat split; auto.
    + destruct (item_eq_dec p it); [discriminate | assumption].
    + now apply pyval_eqb_eq.
Qed.

Lemma sentinel_freshb_sound (its : list item) :
  sentinel_freshb its = true -> sentinel_fresh its.
Proof.
  unfold sentinel_freshb, sentinel_fresh. intros H it I.
  rewrite forallb_forall in H. specialize (H it I).
  apply negb_true_iff in H. now apply pyval_eqb_neq.
Qed.

Lemma ranked_link (rank : pyval -> nat) (its : list item) x y :
  ranked_by rank its = true ->
  clos_trans pyval (parent_link its) x y -> rank y < rank x.
Proof.
  intros H T. unfold ranked_by in H. rewrite forallb_forall in H.
  induction T as [x y (it & I & <- & <- & N)|x y z _ IH1 _ IH2]; [|lia].
  specialize (H it I). apply orb_prop in H as [H|H].
  - apply pyval_eqb_eq in H. contradiction.
  - now apply Nat.ltb_lt.
Qed.

Lemma ranked_acyclic (rank : pyval -> nat) (its : list item) :
  ranked_by rank its = true -> acyclic its.
Proof.
  intros H x T. apply (ranked_link rank its x x H) in T. lia.
Qed.

Lemma validb_sound (rank : pyval -> nat) (its : list item) :
  validb rank its = true -> valid its.
Proof.
  unfold validb. intro H.
  apply andb_prop in H as [H H4]. apply andb_prop in H as [H H3].
  apply andb_prop in H as [H1 H2].
  constructor.
  - now apply distinctb_NoDup.
  - now apply no_danglingb_sound.
  - now apply (ranked_acyclic rank).
  - now apply sentinel_freshb_sound.
Qed.

Lemma test_store_built : TreeStore_init 8 test_items = Done test_store.
Proof. reflexivity. Qed.

End Checks.

(** ** Construction *)

Section Init.
Import DictFacts DefaultDictFacts.

Lemma init_inv fuel (its : list item) ts :
  TreeStore_init fuel its = Done ts ->
  items ts = its
  /\ itemId ts = fst (_createDictsForItems its)
  /\ parentChild ts = snd (_createDictsForItems its)
  /\ _calculateParents fuel (itemId ts) = Done (idAllParents ts).
Proof.
  unfold TreeStore_init.
  destruct (_createDictsForItems its) as [d pc]. simpl.
  destruct (_calculateParents fuel d) as [r| |] eqn:C; try discriminate.
  intro H. injection H as <-. simpl. auto.
Qed.

Lemma dict_link_parent_link (its : list item) c p :
  dict_link (fst (_createDictsForItems its)) c p -> parent_link its c p.
Proof.
  intros (it & G & P & N). apply itemId_sound in G as [I E].
  exists it. auto.
Qed.

Lemma acyclic_dict (its : list item) :
  acyclic its ->
  forall x,
    ~ clos_trans pyval (dict_link (fst (_createDictsForItems its))) x x.
Proof.
  intros A x T. apply (A x).
  assert (incl_links : forall a b,
    clos_trans pyval (dict_link (fst (_createDictsForItems its))) a b ->
    clos_trans pyval (parent_link its) a b).
  { intros a b U. induction U as [a b L|a b c _ IH1 _ IH2].
    - apply t_step. now apply dict_link_parent_link.
    - eapply t_trans; eassumption. }
  now apply incl_links.
Qed.

Lemma closed_dict (its : list item) :
  no_dangling its ->
  forall k it,
    Dict.get (fst (_createDictsForItems its)) k = Some it ->
    parent it <> root ->
    exists p,
      Dict.get (fst (_createDictsForItems its)) (parent it) = Some p.
Proof.
  intros D k it G N. apply itemId_sound in G as [I _].
  destruct (D it I) as [R|(p & Ip & _ & E)]; [contradiction|].
  rewrite <- E. now apply itemId_present.
Qed.

Lemma init_terminates (its : list item) fuel :
  no_dangling its -> acyclic its -> List.length its <= fuel ->
  exists ts, TreeStore_init fuel its = Done ts.
Proof.
  intros D A L. unfold TreeStore_init.
  destruct (_createDictsForItems its) as [d pc] eqn:C.
  assert (Hd : d = fst (_createDictsForItems its)) by now rewrite C.
  destruct (for_keys_done fuel d (Dict.keys d) Dict.empty) as [r Hr].
  - intros k I. apply keys_get in I as [it G].
    destruct (walk_terminates d) with (fuel := fuel) (key := k) (it := it)
      as [l W]; auto.
    + subst d. now apply closed_dict.
    + subst d. now apply acyclic_dict.
    + subst d. pose proof (itemId_length its). lia.
    + eauto.
  - unfold _calculateParents. rewrite Hr. eauto.
Qed.

Lemma init_mono fuel fuel' (its : list item) ts :
  TreeStore_init fuel its = Done ts -> fuel <= fuel' ->
  TreeStore_init fuel' its = Done ts.
Proof.
  unfold TreeStore_init, _calculateParents.
  destruct (_createDictsForItems its) as [d pc].
  destruct (for_keys fuel d (Dict.keys d) Dict.empty) as [r| |] eqn:F;
    try discriminate.
  intros H L. now rewrite (for_keys_mono _ _ _ _ _ _ F L).
Qed.

(** After construction, the ancestors mapping reads at every item id
    the list produced by the walk from that item's parent. *)
Lemma init_ancestors fuel (its : list item) ts k it :
  TreeStore_init fuel its = Done ts ->
  Dict.get (itemId ts) k = Some it ->
  walk fuel (itemId ts) (parent it)
  = Done (DefaultDict.lookup (idAllParents ts) k).
Proof.
  intros H G. destruct (init_inv _ _ _ H) as (_ & Ei & _ & C).
  unfold _calculateParents in C.
  assert (N : NoDup (Dict.keys (itemId ts))).
  { rewrite Ei. apply itemId_keys_NoDup. }
  destruct (for_keys_lookup _ _ _ _ _ N C k) as [F _].
  destruct F as (it' & l & G' & W & Lk).
  - eapply get_Some_keys; eassumption.
  - rewrite G in G'. injection G' as <-. now rewrite W, Lk.
Qed.

End Init.

(** ** Queries *)

Section Queries.
Import DictFacts DefaultDictFacts.

Lemma getItem_present ts k it :
  Dict.get (itemId ts) k = Some it -> getItem ts k = (Ok it, ts).
Proof.
  intro G. unfold getItem, Dict.contains. now rewrite G.
Qed.

Lemma getItem_absent ts k :
  Dict.get (itemId ts) k = None ->
  getItem ts k = (Raise (IdNotFoundError k), ts).
Proof.
  intro G. unfold getItem, Dict.contains. now rewrite G.
Qed.

Lemma getChildren_present ts k it :
  Dict.get (itemId ts) k = Some it ->
  fst (getChildren ts k) = Ok (DefaultDict.lookup (parentChild ts) k).
Proof.
  intro G. unfold getChildren, Dict.contains. rewrite G. simpl.
  pose proof (getitem_value (parentChild ts) k) as V.
  destruct (DefaultDict.getitem (parentChild ts) k). simpl in *.
  now subst.
Qed.

Lemma getChildren_absent ts k :
  Dict.get (itemId ts) k = None ->
  getChildren ts k = (Raise (IdNotFoundError k), ts).
Proof.
  intro G. unfold getChildren, Dict.contains. now rewrite G.
Qed.

Lemma getAllParents_present ts k it :
  Dict.get (itemId ts) k = Some it ->
  fst (getAllParents ts k)
  = Ok (DefaultDict.lookup (idAllParents ts) k).
Proof.
  intro G. unfold getAllParents, Dict.contains. rewrite G. simpl.
  pose proof (getitem_value (idAllParents ts) k) as V.
  destruct (DefaultDict.getitem (idAllParents ts) k). simpl in *.
  now subst.
Qed.

Lemma getAllParents_absent ts k :
  Dict.get (itemId ts) k = None ->
  getAllParents ts k = (Raise (IdNotFoundError k), ts).
Proof.
  intro G. unfold getAllParents, Dict.contains. now rewrite G.
Qed.

Lemma store_equiv_refl s : store_equiv s s.
Proof. repeat split. Qed.

Lemma store_equiv_trans s1 s2 s3 :
  store_equiv s1 s2 -> store_equiv s2 s3 -> store_equiv s1 s3.
Proof.
  intros (A1 & B1 & C1 & D1) (A2 & B2 & C2 & D2).
  unfold store_equiv. split; [congruence|]. split; [congruence|].
  split; intro k; [now rewrite C1 | now rewrite D1].
Qed.

(** A query leaves a store that reads like the one it started from. *)
Lemma run_query_self q s : store_equiv (snd (run_query q s)) s.
Proof.
  destruct q as [|k|k|k]; simpl.
  - apply store_equiv_refl.
  - unfold getItem.
    destruct (negb _); [apply store_equiv_refl|].
    destruct (Dict.get _ _); apply store_equiv_refl.
  - unfold getChildren.
    destruct (negb _); [apply store_equiv_refl|].
    pose proof (getitem_lookup (parentChild s) k) as L.
    destruct (DefaultDict.getitem (parentChild s) k). simpl in *.
    repeat split; auto.
  - unfold getAllParents.
    destruct (negb _); [apply store_equiv_refl|].
    pose proof (getitem_lookup (idAllParents s) k) as L.
    destruct (DefaultDict.getitem (idAllParents s) k). simpl in *.
    repeat split; auto.
Qed.

(** The answer of a query depends only on what the store reads. *)
Lemma run_query_equiv q s s' :
  store_equiv s s' -> fst (run_query q s) = fst (run_query q s').
Proof.
  intros (A & B & C & D).
  destruct q as [|k|k|k]; simpl.
  - now rewrite A.
  - unfold getItem. rewrite B.
    destruct (negb _); [reflexivity|].
    now destruct (Dict.get _ _).
  - unfold getChildren. rewrite B.
    destruct (negb _); [reflexivity|].
    pose proof (getitem_value (parentChild s) k) as V.
    pose proof (getitem_value (parentChild s') k) as V'.
    destruct (DefaultDict.getitem (parentChild s) k).
    destruct (DefaultDict.getitem (parentChild s') k).
    simpl in *. subst. now rewrite C.
  - unfold getAllParents. rewrite B.
    destruct (negb _); [reflexivity|].
    pose proof (getitem_value (idAllParents s) k) as V.
    pose proof (getitem_value (idAllParents s') k) as V'.
    destruct (DefaultDict.getitem (idAllParents s) k).
    destruct (DefaultDict.getitem (idAllParents s') k).
    simpl in *. subst. now rewrite D.
Qed.

Lemma run_queries_equiv qs s : store_equiv (run_queries qs s) s.
Proof.
  revert s. induction qs as [|q qs IH]; intro s; simpl.
  - apply store_equiv_refl.
  - eapply store_equiv_trans; [apply IH | apply run_query_self].
Qed.

End Queries.

(** ** Ancestor chains *)

Section Chains.

Lemma chain_at_root (its : list item) l :
  ancestor_chain its root l -> l = [].
Proof.
  intro C. inversion C; [reflexivity | contradiction].
Qed.

Lemma chain_head (its : list item) p l :
  ancestor_chain its p l -> p <> root ->
  exists it, nth_error l 0 = Some it /\ In it its /\ id it = p.
Proof.
  intros C N. inversion C; subst; [contradiction|]. simpl. eauto.
Qed.

Lemma chain_consecutive (its : list item) p l :
  ancestor_chain its p l ->
  forall i a b,
    nth_error l i = Some a -> nth_error l (S i) = Some b ->
    parent a <> root /\ In b its /\ id b = parent a.
Proof.
  induction 1 as [|p it l N I E C IH]; intros i a b Ha Hb.
  - destruct i; discriminate.
  - destruct i as [|i]; simpl in *.
    + injection Ha as <-.
      inversion C; subst; [discriminate|].
      simpl in Hb. injection Hb as <-. auto.
    + eapply IH; eassumption.
Qed.

Lemma chain_last (its : list item) p l :
  ancestor_chain its p l ->
  forall l' z, l = l' ++ [z] -> parent z = root.
Proof.
  induction 1 as [|p it l N I E C IH]; intros l' z Q.
  - destruct l'; discriminate.
  - destruct l' as [|a l']; simpl in Q; injection Q as -> Q.
    + subst l. inversion C. congruence.
    + eauto.
Qed.

Lemma chain_members (its : list item) p l :
  ancestor_chain its p l -> forall a, In a l -> In a its.
Proof.
  induction 1 as [|p it l N I E C IH]; intros a [].
  - now subst.
  - auto.
Qed.

End Chains.

(** ** The reference scenario and malformed inputs *)

Section Scenarios.

(** The assertions of [testValidCommands]. *)
Example test_getAll : fst (getAll test_store) = Ok test_items.
Proof. reflexivity. Qed.

Example test_getItem_7 : fst (getItem test_store (VInt 7)) = Ok item7.
Proof. reflexivity. Qed.

Example test_getChildren_4 :
  fst (getChildren test_store (VInt 4)) = Ok [item7; item8].
Proof. reflexivity. Qed.

Example test_getChildren_5 :
  fst (getChildren test_store (VInt 5)) = Ok [].
Proof. reflexivity. Qed.

Example test_getAllParents_7 :
  fst (getAllParents test_store (VInt 7)) = Ok [item4; item2; item1].
Proof. reflexivity. Qed.

(** On a cycle the walk exhausts every bound: the loop never ends. *)
Lemma cyclic_walk_runs_on fuel :
  walk fuel (fst (_createDictsForItems cyclic_items)) (VInt 1) = OutOfFuel
  /\ walk fuel (fst (_createDictsForItems cyclic_items)) (VInt 2)
     = OutOfFuel.
Proof.
  induction fuel as [|fuel [IH1 IH2]]; [split; reflexivity|].
  simpl in IH1, IH2.
  split; simpl; [now rewrite IH2 | now rewrite IH1].
Qed.

Lemma cyclic_input_never_returns fuel :
  TreeStore_init fuel cyclic_items = OutOfFuel.
Proof.
  pose proof (proj2 (cyclic_walk_runs_on fuel)) as W. simpl in W.
  unfold TreeStore_init, _calculateParents. simpl.
  now rewrite while_loop_walk, W.
Qed.

(** A parent that is no item's id makes [itemId[parent]] raise. *)
Lemma dangling_input_raises fuel :
  TreeStore_init (S fuel) dangling_items = Fail (KeyError (VInt 9)).
Proof. reflexivity. Qed.

(** When an item has the sentinel as id, the sentinel is a known id. *)
Example sentinel_id_accepted :
  exists ts,
    TreeStore_init 1 sentinel_id_items = Done ts
    /\ fst (getChildren ts root) = Ok [mkItem root root []].
Proof. eexists. split; reflexivity. Qed.

End Scenarios.

(** * The claims *)

Section Claims.
Import DictFacts DefaultDictFacts.

Lemma valid_test_items : valid test_items.
Proof. apply (validb_sound int_rank). reflexivity. Qed.

Lemma built_from_valid (its : list item) fuel :
  valid its -> List.length its <= fuel ->
  exists ts, TreeStore_init fuel its = Done ts.
Proof.
  intros [U D A S] L. now apply init_terminates.
Qed.

Lemma getChildren_filter_aux (its : list item) (X : pyval) fuel :
  valid its -> In X (map id its) -> List.length its <= fuel ->
  exists ts,
    TreeStore_init fuel its = Done ts
    /\ fst (getChildren ts X)
       = Ok (filter (fun it => pyval_eqb (parent it) X) its).
Proof.
  intros V I L.
  destruct (built_from_valid its fuel V L) as [ts H].
  destruct (init_inv _ _ _ H) as (Ei & Ed & Ep & C).
  apply in_map_iff in I as (x & <- & I).
  destruct (itemId_present its x I) as [x' G]. rewrite <- Ed in G.
  exists ts. split; [assumption|].
  rewrite (getChildren_present ts _ _ G), Ep.
  now rewrite parentChild_lookup.
Qed.

End Claims.

(** C1. On an input satisfying the Data Model invariants, construction
    succeeds and [getAllParents] on the id of an item [x] returns the
    chain of ancestors, nearest first: it is empty when [x]'s parent is
    the sentinel; otherwise its first element is the item whose id is
    [x]'s parent, each further element is the item whose id is the
    parent of the element before it, and the parent of its last element
    is the sentinel. *)
Theorem getAllParents_ancestor_chain
  (its : list item) (x : item) (fuel : nat) :
  valid its -> In x its -> List.length its <= fuel ->
  exists ts l,
    TreeStore_init fuel its = Done ts
    /\ fst (getAllParents ts (id x)) = Ok l
    /\ (parent x = root -> l = [])
    /\ (parent x <> root ->
        exists p, nth_error l 0 = Some p /\ In p its /\ id p = parent x)
    /\ (forall i a b,
          nth_error l i = Some a -> nth_error l (S i) = Some b ->
          parent a <> root /\ In b its /\ id b = parent a)
    /\ (forall l' z, l = l' ++ [z] -> parent z = root).
Proof.
  intros V I L.
  destruct (built_from_valid its fuel V L) as [ts H].
  destruct V as [U D A S].
  destruct (init_inv _ _ _ H) as (Ei & Ed & Ep & C).
  assert (G : Dict.get (itemId ts) (id x) = Some x).
  { rewrite Ed. now apply itemId_complete. }
  pose proof (init_ancestors _ _ _ _ _ H G) as W.
  exists ts, (DefaultDict.lookup (idAllParents ts) (id x)).
  split; [assumption|].
  split; [now apply getAllParents_present with x|].
  assert (Ch : ancestor_chain its (parent x)
                 (DefaultDict.lookup (idAllParents ts) (id x))).
  { eapply walk_chain; [|exact W].
    intros k it Gk. rewrite Ed in Gk. now apply itemId_sound. }
  split; [|split; [|split]].
  - intro R. rewrite R in Ch. now apply chain_at_root in Ch.
  - intro N. now apply (chain_head its (parent x)).
  - intros i a b. now apply (chain_consecutive its (parent x)).
  - now apply (chain_last its (parent x)).
Qed.

Lemma getAllParents_ancestor_chain_witness :
  valid test_items /\ In item7 test_items
  /\ exists ts l,
    TreeStore_init 8 test_items = Done ts
    /\ fst (getAllParents ts (id item7)) = Ok l
    /\ (parent item7 = root -> l = [])
    /\ (parent item7 <> root ->
        exists p, nth_error l 0 = Some p /\ In p test_items
                  /\ id p = parent item7)
    /\ (forall i a b,
          nth_error l i = Some a -> nth_error l (S i) = Some b ->
          parent a <> root /\ In b test_items /\ id b = parent a)
    /\ (forall l' z, l = l' ++ [z] -> parent z = root).
Proof.
  assert (V : valid test_items)
    by (apply (validb_sound int_rank); vm_compute; reflexivity).
  assert (I : In item7 test_items) by (simpl; tauto).
  split; [exact V|]. split; [exact I|].
  apply (getAllParents_ancestor_chain test_items item7 8 V I).
  simpl. lia.
Defined.

(** C2. On an input satisfying the Data Model invariants, [getChildren]
    on the id [X] of an item returns the items whose parent is [X], in
    input order: every element has parent [X], every input item with
    parent [X] is an element, and the result is empty when there is no
    such item. *)
Theorem getChildren_filter (its : list item) (X : pyval) (fuel : nat) :
  valid its -> In X (map id its) -> List.length its <= fuel ->
  exists ts l,
    TreeStore_init fuel its = Done ts
    /\ fst (getChildren ts X) = Ok l
    /\ l = filter (fun it => pyval_eqb (parent it) X) its
    /\ (forall c, In c l -> parent c = X)
    /\ (forall c, In c its -> parent c = X -> In c l)
    /\ ((forall c, In c its -> parent c <> X) -> l = []).
Proof.
  intros V I L.
  destruct (getChildren_filter_aux its X fuel V I L) as (ts & H & Hc).
  exists ts, (filter (fun it => pyval_eqb (parent it) X) its).
  split; [assumption|]. split; [assumption|].
  split; [reflexivity|].
  split; [|split].
  - intros c Hc'. apply filter_In in Hc' as [_ Hc'].
    now apply pyval_eqb_eq.
  - intros c Hc' E. apply filter_In. split; [assumption|].
    now apply pyval_eqb_eq.
  - intro N.
    destruct (filter _ its) as [|c l] eqn:F; [reflexivity|].
    assert (M : In c (filter (fun it => pyval_eqb (parent it) X) its))
      by (rewrite F; now left).
    apply filter_In in M as [M1 M2]. apply pyval_eqb_eq in M2.
    now apply N in M1.
Qed.

Lemma getChildren_filter_witness :
  valid test_items /\ In (VInt 4) (map id test_items)
  /\ exists ts l,
    TreeStore_init 8 test_items = Done ts
    /\ fst (getChildren ts (VInt 4)) = Ok l
    /\ l = filter (fun it => pyval_eqb (parent it) (VInt 4)) test_items
    /\ (forall c, In c l -> parent c = VInt 4)
    /\ (forall c, In c test_items -> parent c = VInt 4 -> In c l)
    /\ ((forall c, In c test_items -> parent c <> VInt 4) -> l = []).
Proof.
  assert (V : valid test_items)
    by (apply (validb_sound int_rank); vm_compute; reflexivity).
  assert (I : In (VInt 4) (map id test_items)) by (simpl; tauto).
  split; [exact V|]. split; [exact I|].
  apply (getChildren_filter test_items (VInt 4) 8 V I).
  simpl. lia.
Defined.

(** C4. On an input satisfying the Data Model invariants, [getAll]
    returns the input sequence itself and leaves the store as it is;
    on any store whatever, [getAll] returns a list and raises nothing. *)
Theorem getAll_returns_input (its : list item) (fuel : nat) :
  valid its -> List.length its <= fuel ->
  exists ts,
    TreeStore_init fuel its = Done ts
    /\ getAll ts = (Ok its, ts)
    /\ forall s : TreeStore, fst (getAll s) = Ok (items s).
Proof.
  intros V L.
  destruct (built_from_valid its fuel V L) as [ts H].
  destruct (init_inv _ _ _ H) as (Ei & _).
  exists ts. split; [assumption|]. split; [|reflexivity].
  unfold getAll. now rewrite Ei.
Qed.

Lemma getAll_returns_input_witness :
  valid test_items
  /\ exists ts,
    TreeStore_init 8 test_items = Done ts
    /\ getAll ts = (Ok test_items, ts)
    /\ forall s : TreeStore, fst (getAll s) = Ok (items s).
Proof.
  assert (V : valid test_items)
    by (apply (validb_sound int_rank); vm_compute; reflexivity).
  split; [exact V|].
  apply (getAll_returns_input test_items 8 V).
  simpl. lia.
Defined.

(** C5. On an input satisfying the Data Model invariants, [getItem] on
    the id of an input item [i] returns the record [i] itself, so with
    the same extra fields, and leaves the store as it is. *)
Theorem getItem_returns_record (its : list item) (i : item) (fuel : nat) :
  valid its -> In i its -> List.length its <= fuel ->
  exists ts r,
    TreeStore_init fuel its = Done ts
    /\ getItem ts (id i) = (Ok r, ts)
    /\ r = i
    /\ fields r = fields i.
Proof.
  intros V I L.
  destruct (built_from_valid its fuel V L) as [ts H].
  destruct (init_inv _ _ _ H) as (_ & Ed & _).
  exists ts, i. split; [assumption|].
  split; [|split; reflexivity].
  apply getItem_present. rewrite Ed.
  apply itemId_complete; [apply V | assumption].
Qed.

Lemma getItem_returns_record_witness :
  valid test_items /\ In item7 test_items
  /\ exists ts r,
    TreeStore_init 8 test_items = Done ts
    /\ getItem ts (id item7) = (Ok r, ts)
    /\ r = item7
    /\ fields r = fields item7.
Proof.
  assert (V : valid test_items)
    by (apply (validb_sound int_rank); vm_compute; reflexivity).
  assert (I : In item7 test_items) by (simpl; tauto).
  split; [exact V|]. split; [exact I|].
  apply (getItem_returns_record test_items item7 8 V I).
  simpl. lia.
Defined.

Lemma itemId_None_iff (its : list item) (X : pyval) :
  Dict.get (fst (_createDictsForItems its)) X = None
  <-> ~ In X (map id its).
Proof.
  split.
  - intros G I. apply in_map_iff in I as (x & <- & I).
    destruct (itemId_present its x I) as [x' G']. congruence.
  - intro N.
    destruct (Dict.get _ X) as [it|] eqn:G; [|reflexivity].
    apply itemId_sound in G as [I <-]. exfalso. apply N.
    now apply in_map.
Qed.

(** C3. For a constructed index and any identifier [X], each of
    [getItem], [getChildren] and [getAllParents] raises
    [IdNotFoundError X] exactly when [X] is the id of no input item, and
    returns a value otherwise.  In particular the sentinel is rejected
    when it is no item's id, and the id of an item without children
    gets the empty list from [getChildren]. *)
Theorem queries_IdNotFound_iff
  (its : list item) (fuel : nat) (ts : TreeStore) (X : pyval) :
  TreeStore_init fuel its = Done ts ->
  (fst (getItem ts X) = Raise (IdNotFoundError X) <-> ~ In X (map id its))
  /\ (fst (getChildren ts X) = Raise (IdNotFoundError X)
      <-> ~ In X (map id its))
  /\ (fst (getAllParents ts X) = Raise (IdNotFoundError X)
      <-> ~ In X (map id its))
  /\ (In X (map id its) ->
      exists i c a,
        fst (getItem ts X) = Ok i
        /\ fst (getChildren ts X) = Ok c
        /\ fst (getAllParents ts X) = Ok a)
  /\ (sentinel_fresh its ->
      fst (getItem ts root) = Raise (IdNotFoundError root)
      /\ fst (getChildren ts root) = Raise (IdNotFoundError root)
      /\ fst (getAllParents ts root) = Raise (IdNotFoundError root))
  /\ (In X (map id its) -> (forall c, In c its -> parent c <> X) ->
      fst (getChildren ts X) = Ok []).
Proof.
  intro H. destruct (init_inv _ _ _ H) as (Ei & Ed & Ep & C).
  assert (absent : forall k, ~ In k (map id its) ->
            fst (getItem ts k) = Raise (IdNotFoundError k)
            /\ fst (getChildren ts k) = Raise (IdNotFoundError k)
            /\ fst (getAllParents ts k) = Raise (IdNotFoundError k)).
  { intros k N. apply itemId_None_iff in N. rewrite <- Ed in N.
    rewrite (getItem_absent _ _ N), (getChildren_absent _ _ N),
      (getAllParents_absent _ _ N). auto. }
  assert (present : forall k, In k (map id its) ->
            exists it, Dict.get (itemId ts) k = Some it).
  { intros k I. destruct (Dict.get (itemId ts) k) as [it|] eqn:G; [eauto|].
    rewrite Ed in G. apply itemId_None_iff in G. contradiction. }
  split; [|split; [|split; [|split; [|split]]]].
  - split; [|apply absent].
    intros R I. destruct (present X I) as [it G].
    rewrite (getItem_present _ _ _ G) in R. discriminate.
  - split; [|apply absent].
    intros R I. destruct (present X I) as [it G].
    rewrite (getChildren_present _ _ _ G) in R. discriminate.
  - split; [|apply absent].
    intros R I. destruct (present X I) as [it G].
    rewrite (getAllParents_present _ _ _ G) in R. discriminate.
  - intro I. destruct (present X I) as [it G].
    exists it, (DefaultDict.lookup (parentChild ts) X),
      (DefaultDict.lookup (idAllParents ts) X).
    rewrite (getItem_present _ _ _ G), (getChildren_present _ _ _ G),
      (getAllParents_present _ _ _ G). auto.
  - intro S. apply absent. intro I.
    apply in_map_iff in I as (x & E & I). exact (S x I E).
  - intros I N. destruct (present X I) as [it G].
    rewrite (getChildren_present _ _ _ G), Ep, parentChild_lookup.
    f_equal.
    destruct (filter _ its) as [|c l] eqn:F; [reflexivity|].
    assert (Hc : In c (filter (fun it => pyval_eqb (parent it) X) its))
      by (rewrite F; now left).
    apply filter_In in Hc as [Hc1 Hc2]. apply pyval_eqb_eq in Hc2.
    now apply N in Hc1.
Qed.

Lemma queries_IdNotFound_iff_witness :
  TreeStore_init 8 test_items = Done test_store
  /\ fst (getItem test_store (VInt 0)) = Raise (IdNotFoundError (VInt 0))
  /\ fst (getChildren test_store (VInt 0))
     = Raise (IdNotFoundError (VInt 0))
  /\ fst (getAllParents test_store (VInt 0))
     = Raise (IdNotFoundError (VInt 0)).
Proof.
  assert (H : TreeStore_init 8 test_items = Done test_store)
    by (vm_compute; reflexivity).
  assert (N : ~ In (VInt 0) (map id test_items))
    by (simpl; intuition discriminate).
  destruct (queries_IdNotFound_iff test_items 8 test_store (VInt 0) H)
    as (A & B & C & _).
  split; [exact H|].
  split; [apply A, N|]. split; [apply B, N | apply C, N].
Defined.

(** C6. On an input satisfying the Data Model invariants, construction
    terminates: one and the same store is returned for every bound on
    the loop that is at least the number of items, it holds the input
    and the two mappings built from it, and for every item the
    ancestor walk started at that item ends at the sentinel within
    that bound. *)
Theorem construction_terminates (its : list item) :
  valid its ->
  exists ts,
    (forall fuel, List.length its <= fuel ->
                  TreeStore_init fuel its = Done ts)
    /\ items ts = its
    /\ itemId ts = fst (_createDictsForItems its)
    /\ parentChild ts = snd (_createDictsForItems its)
    /\ (forall it fuel acc,
          In it its -> List.length its <= fuel ->
          exists acc',
            while_loop fuel (itemId ts) (id it) (parent it) acc
            = Done acc').
Proof.
  intro V.
  destruct (built_from_valid its (List.length its) V (le_n _)) as [ts H].
  destruct (init_inv _ _ _ H) as (Ei & Ed & Ep & C).
  exists ts. split; [|split; [|split; [|split]]]; auto.
  - intros fuel L. now apply (init_mono (List.length its)).
  - intros it fuel acc I L.
    assert (G : Dict.get (itemId ts) (id it) = Some it).
    { rewrite Ed. apply itemId_complete; [apply V | assumption]. }
    pose proof (init_ancestors _ _ _ _ _ H G) as W.
    rewrite while_loop_walk, (walk_mono _ _ _ _ _ W L). eauto.
Qed.

Lemma construction_terminates_witness :
  valid test_items
  /\ exists ts,
    (forall fuel, List.length test_items <= fuel ->
                  TreeStore_init fuel test_items = Done ts)
    /\ items ts = test_items
    /\ itemId ts = fst (_createDictsForItems test_items)
    /\ parentChild ts = snd (_createDictsForItems test_items)
    /\ (forall it fuel acc,
          In it test_items -> List.length test_items <= fuel ->
          exists acc',
            while_loop fuel (itemId ts) (id it) (parent it) acc
            = Done acc').
Proof.
  assert (V : valid test_items)
    by (apply (validb_sound int_rank); vm_compute; reflexivity).
  split; [exact V|].
  exact (construction_terminates test_items V).
Defined.

(** C7, as the code has it.  On any store, the answer of a query is
    the same after any sequence of earlier queries as before it, and
    such a sequence leaves the item list and the id mapping unchanged
    and every read of the children and ancestors mappings unchanged;
    what a query may do is bind a missing key of those two mappings
    to the empty list. *)
Theorem queries_preserve_answers
  (ts : TreeStore) (qs : list query) (q : query) :
  fst (run_query q (run_queries qs ts)) = fst (run_query q ts)
  /\ fst (run_query q (snd (run_query q ts))) = fst (run_query q ts)
  /\ items (run_queries qs ts) = items ts
  /\ itemId (run_queries qs ts) = itemId ts
  /\ (forall k, DefaultDict.lookup (parentChild (run_queries qs ts)) k
                = DefaultDict.lookup (parentChild ts) k)
  /\ (forall k, DefaultDict.lookup (idAllParents (run_queries qs ts)) k
                = DefaultDict.lookup (idAllParents ts) k).
Proof.
  split; [|split].
  - apply run_query_equiv, run_queries_equiv.
  - apply run_query_equiv, run_query_self.
  - apply run_queries_equiv.
Qed.

(** C7 fails as stated: on the reference scenario, [getChildren 5]
    (item 5 has no children) adds the key 5 to the children mapping,
    and [getAllParents 1] (item 1 is a root) adds the key 1 to the
    ancestors mapping. *)
Lemma queries_mutate_mappings :
  exists ts,
    TreeStore_init 8 test_items = Done ts
    /\ Dict.get (parentChild ts) (VInt 5) = None
    /\ Dict.get (parentChild (run_queries [QGetChildren (VInt 5)] ts))
         (VInt 5) = Some []
    /\ run_queries [QGetChildren (VInt 5)] ts <> ts
    /\ Dict.get (idAllParents ts) (VInt 1) = None
    /\ Dict.get (idAllParents (run_queries [QGetAllParents (VInt 1)] ts))
         (VInt 1) = Some []
    /\ run_queries [QGetAllParents (VInt 1)] ts <> ts.
Proof.
  exists test_store.
  split; [reflexivity|]. split; [reflexivity|]. split; [reflexivity|].
  split.
  { intro E. apply (f_equal (fun s => Dict.get (parentChild s) (VInt 5))) in E.
    vm_compute in E. discriminate. }
  split; [reflexivity|]. split; [reflexivity|].
  intro E. apply (f_equal (fun s => Dict.get (idAllParents s) (VInt 1))) in E.
  vm_compute in E. discriminate.
Qed.

(** C8. When two items [a] and [b] share an id, [b] being the last
    input item with that id, and the input is otherwise well formed
    (no dangling parent, no cycle), construction succeeds with the
    same store for every sufficient bound, and [getItem] on the shared
    id returns [b], the later item. *)
Theorem duplicate_id_last_wins
  (pre mid post : list item) (a b : item) :
  id a = id b ->
  (forall c, In c post -> id c <> id b) ->
  no_dangling (pre ++ a :: mid ++ b :: post) ->
  acyclic (pre ++ a :: mid ++ b :: post) ->
  exists ts,
    (forall fuel,
        List.length (pre ++ a :: mid ++ b :: post) <= fuel ->
        TreeStore_init fuel (pre ++ a :: mid ++ b :: post) = Done ts)
    /\ getItem ts (id a) = (Ok b, ts).
Proof.
  intros E L D A.
  destruct (init_terminates _ _ D A (le_n _)) as [ts H].
  destruct (init_inv _ _ _ H) as (_ & Ed & _).
  exists ts. split.
  - intros fuel Hf. eapply init_mono; eassumption.
  - apply getItem_present. rewrite Ed, E.
    replace (pre ++ a :: mid ++ b :: post)
      with ((pre ++ a :: mid) ++ b :: post)
      by (rewrite <- app_assoc; reflexivity).
    now apply itemId_last.
Qed.

Lemma duplicate_id_last_wins_witness :
  exists ts,
    (forall fuel, 3 <= fuel -> TreeStore_init fuel dup_items = Done ts)
    /\ getItem ts (VInt 1)
       = (Ok (mkItem (VInt 1) root [("type", VStr "new")]), ts).
Proof.
  apply (duplicate_id_last_wins
           [] [mkItem (VInt 2) (VInt 1) []] []
           (mkItem (VInt 1) root [("type", VStr "old")])
           (mkItem (VInt 1) root [("type", VStr "new")])).
  - reflexivity.
  - intros c [].
  - apply no_danglingb_sound. vm_compute. reflexivity.
  - apply (ranked_acyclic int_rank). vm_compute. reflexivity.
Defined.

(** C9 fails as stated: nothing keeps an item from having the
    sentinel as its id, and then the sentinel is a known id.  On
    [sentinel_child_items] construction returns a store on which
    [getChildren] on the sentinel raises nothing and returns the root
    item 1. *)
Lemma getChildren_root_returns_roots :
  exists ts,
    TreeStore_init 2 sentinel_child_items = Done ts
    /\ getChildren ts root <> (Raise (IdNotFoundError root), ts)
    /\ fst (getChildren ts root) = Ok [mkItem (VInt 1) root []].
Proof.
  eexists. split; [vm_compute; reflexivity|].
  split; [vm_compute; discriminate | vm_compute; reflexivity].
Qed.

(** C9, as the code has it.  For an index constructed from items none
    of which has the sentinel as id, [getChildren] on the sentinel
    raises [IdNotFoundError] and leaves the store as it is, although
    every item whose parent is the sentinel is stored under the
    sentinel key of the children mapping. *)
Theorem getChildren_root_rejected
  (its : list item) (fuel : nat) (ts : TreeStore) :
  TreeStore_init fuel its = Done ts ->
  sentinel_fresh its ->
  getChildren ts root = (Raise (IdNotFoundError root), ts)
  /\ (forall r, In r its -> parent r = root ->
        exists l, Dict.get (parentChild ts) root = Some l /\ In r l).
Proof.
  intros H S. destruct (init_inv _ _ _ H) as (_ & Ed & Ep & _).
  split.
  - apply getChildren_absent. rewrite Ed. apply itemId_None_iff.
    intro I. apply in_map_iff in I as (x & E & I). exact (S x I E).
  - intros r I R.
    assert (M : In r (DefaultDict.lookup (parentChild ts) root)).
    { rewrite Ep, parentChild_lookup. apply filter_In.
      split; [assumption | now apply pyval_eqb_eq]. }
    unfold DefaultDict.lookup in M.
    destruct (Dict.get (parentChild ts) root) as [l|]; [eauto|].
    destruct M.
Qed.

Lemma getChildren_root_rejected_witness :
  TreeStore_init 8 test_items = Done test_store
  /\ sentinel_fresh test_items
  /\ getChildren test_store root
     = (Raise (IdNotFoundError root), test_store)
  /\ (forall r, In r test_items -> parent r = root ->
        exists l, Dict.get (parentChild test_store) root = Some l
                  /\ In r l).
Proof.
  assert (H : TreeStore_init 8 test_items = Done test_store)
    by (vm_compute; reflexivity).
  assert (S : sentinel_fresh test_items)
    by (apply sentinel_freshb_sound; vm_compute; reflexivity).
  split; [exact H|]. split; [exact S|].
  exact (getChildren_root_rejected test_items 8 test_store H S).
Defined.

(** C10. On an input satisfying the Data Model invariants, for the id
    [X] of an item and every element [c] of [getChildren X], [getItem]
    on [c]'s id returns [c], both on the store as constructed and on
    the store left by the [getChildren] call. *)
Theorem getChildren_getItem_roundtrip
  (its : list item) (X : pyval) (fuel : nat) :
  valid its -> In X (map id its) -> List.length its <= fuel ->
  exists ts l,
    TreeStore_init fuel its = Done ts
    /\ fst (getChildren ts X) = Ok l
    /\ (forall c, In c l ->
          getItem ts (id c) = (Ok c, ts)
          /\ fst (getItem (snd (getChildren ts X)) (id c)) = Ok c
          /\ parent c = X).
Proof.
  intros V I L.
  destruct (getChildren_filter_aux its X fuel V I L)
    as (ts & H & Hc).
  exists ts, (filter (fun it => pyval_eqb (parent it) X) its).
  split; [assumption|]. split; [assumption|].
  destruct (init_inv _ _ _ H) as (_ & Ed & _).
  intros c M. apply filter_In in M as [M P].
  assert (G : Dict.get (itemId ts) (id c) = Some c).
  { rewrite Ed. apply itemId_complete; [apply V | assumption]. }
  split; [now apply getItem_present|].
  split; [|now apply pyval_eqb_eq].
  pose proof (run_query_self (QGetChildren X) ts) as (_ & Q & _).
  simpl in Q. destruct (getChildren ts X) as [r s']. simpl in *.
  rewrite <- Q in G. now rewrite (getItem_present _ _ _ G).
Qed.

Lemma getChildren_getItem_roundtrip_witness :
  valid test_items /\ In (VInt 4) (map id test_items)
  /\ exists ts l,
    TreeStore_init 8 test_items = Done ts
    /\ fst (getChildren ts (VInt 4)) = Ok l
    /\ (forall c, In c l ->
          getItem ts (id c) = (Ok c, ts)
          /\ fst (getItem (snd (getChildren ts (VInt 4))) (id c)) = Ok c
          /\ parent c = VInt 4).
Proof.
  assert (V : valid test_items)
    by (apply (validb_sound int_rank); vm_compute; reflexivity).
  assert (I : In (VInt 4) (map id test_items)) by (simpl; tauto).
  split; [exact V|]. split; [exact I|].
  apply (getChildren_getItem_roundtrip test_items (VInt 4) 8 V I).
  simpl. lia.
Defined.

(** * Further properties of the code *)

(** ** The exception message *)

Section Message.

Lemma string_length_append (s t : string) :
  String.length (s ++ t)%string = String.length s + String.length t.
Proof.
  induction s as [|c s IH]; simpl; [reflexivity | now rewrite IH].
Qed.

Lemma string_append_cancel_r (s1 s2 t : string) :
  (s1 ++ t)%string = (s2 ++ t)%string -> s1 = s2.
Proof.
  revert s2. induction s1 as [|c s1 IH]; intros [|c2 s2] H; simpl in H.
  - reflexivity.
  - apply (f_equal String.length) in H. simpl in H.
    rewrite string_length_append in H. lia.
  - apply (f_equal String.length) in H. simpl in H.
    rewrite string_length_append in H. lia.
  - injection H as -> H. f_equal. now apply IH.
Qed.

Lemma py_str_int_inj (a b : Z) : py_str (VInt a) = py_str (VInt b) -> a = b.
Proof.
  simpl. intro H.
  assert (nn : forall z, Z.to_int z <> Decimal.Pos Decimal.Nil
                         /\ Z.to_int z <> Decimal.Neg Decimal.Nil).
  { intros [|p|p]; simpl; split; try discriminate;
      intro E; injection E as E; now apply DecimalPos.Unsigned.to_uint_nonnil in E. }
  apply (f_equal NilZero.int_of_string) in H.
  rewrite !NilZero.isi in H by apply nn.
  injection H as H. apply (f_equal Z.of_int) in H.
  now rewrite !DecimalZ.of_to in H.
Qed.

End Message.

(** X10. The message built by [IdNotFoundError.__init__] tells integer
    ids apart: two integer ids with the same message are equal. *)
Theorem IdNotFoundError_message_int_inj (a b : Z) :
  IdNotFoundError_message (VInt a) = IdNotFoundError_message (VInt b) ->
  a = b.
Proof.
  unfold IdNotFoundError_message. intro H.
  apply py_str_int_inj.
  simpl in H.
  repeat (injection H as H).
  now apply string_append_cancel_r in H.
Qed.

Lemma IdNotFoundError_message_int_inj_witness :
  IdNotFoundError_message (VInt 7) = "Item with id = 7 not found"%string
  /\ 7%Z = 7%Z.
Proof.
  split; [reflexivity|].
  apply (IdNotFoundError_message_int_inj 7 7). reflexivity.
Defined.

(** ** More on the ancestor walk *)

Section WalkMore.
Import DictFacts DefaultDictFacts.

Lemma walk_step fuel (d : Dict.t item) p l :
  walk fuel d p = Done l -> p <> root ->
  exists it l',
    Dict.get d p = Some it /\ l = it :: l'
    /\ walk fuel d (parent it) = Done l'.
Proof.
  destruct fuel as [|fuel]; simpl; [discriminate|].
  intros H N. apply pyval_eqb_neq in N. rewrite N in H.
  destruct (Dict.get d p) as [it|]; [|discriminate].
  destruct (walk fuel d (parent it)) as [l'| |] eqn:W; try discriminate.
  injection H as <-. exists it, l'. repeat split.
  exact (walk_mono fuel (S fuel) d _ _ W (Nat.le_succ_diag_r fuel)).
Qed.

Lemma walk_at_root fuel (d : Dict.t item) l :
  walk fuel d root = Done l -> l = [].
Proof.
  destruct fuel as [|fuel]; simpl; [discriminate|].
  intro H. now injection H.
Qed.

(** Every item listed by a walk has its own, shorter, walk. *)
Lemma walk_suffix fuel (d : Dict.t item) p l a :
  walk fuel d p = Done l -> In a l ->
  exists l',
    walk fuel d (parent a) = Done l'
    /\ List.length l' < List.length l.
Proof.
  revert p l.
  induction fuel as [|fuel IH]; intros p l; simpl; [discriminate|].
  destruct (pyval_eqb p root); [intro H; injection H as <-; intros []|].
  destruct (Dict.get d p) as [it|]; [|discriminate].
  destruct (walk fuel d (parent it)) as [l0| |] eqn:W; try discriminate.
  intro H. injection H as <-. intros [<-|I].
  - exists l0. split; [|simpl; lia].
    exact (walk_mono fuel (S fuel) d _ _ W (Nat.le_succ_diag_r fuel)).
  - destruct (IH _ _ W I) as (l' & W' & Hl).
    exists l'. split; [|simpl; lia].
    exact (walk_mono fuel (S fuel) d _ _ W' (Nat.le_succ_diag_r fuel)).
Qed.

Lemma walk_elements fuel (d : Dict.t item) p l a :
  (forall k it, Dict.get d k = Some it -> id it = k) ->
  walk fuel d p = Done l -> In a l -> Dict.get d (id a) = Some a.
Proof.
  intro S. revert p l.
  induction fuel as [|fuel IH]; intros p l; simpl; [discriminate|].
  destruct (pyval_eqb p root); [intro H; injection H as <-; intros []|].
  destruct (Dict.get d p) as [it|] eqn:G; [|discriminate].
  destruct (walk fuel d (parent it)) as [l0| |] eqn:W; try discriminate.
  intro H. injection H as <-. intros [<-|I].
  - now rewrite (S _ _ G).
  - eapply IH; eassumption.
Qed.

(** A walk that ends lists no id twice. *)
Lemma walk_ids_NoDup fuel (d : Dict.t item) p l :
  (forall k it, Dict.get d k = Some it -> id it = k) ->
  walk fuel d p = Done l -> NoDup (map id l).
Proof.
  intro S. revert p l.
  induction fuel as [|fuel IH]; intros p l; simpl; [discriminate|].
  destruct (pyval_eqb p root); [intro H; injection H as <-; constructor|].
  destruct (Dict.get d p) as [it|] eqn:G; [|discriminate].
  destruct (walk fuel d (parent it)) as [l0| |] eqn:W; try discriminate.
  intro H. injection H as <-. simpl. constructor; [|eapply IH; eassumption].
  intro I. apply in_map_iff in I as (a & E & I).
  pose proof (walk_elements _ _ _ _ _ S W I) as Ga.
  rewrite E, (S _ _ G), G in Ga. injection Ga as ->.
  destruct (walk_suffix _ _ _ _ _ W I) as (l' & W' & Hl).
  rewrite W in W'. injection W' as <-. lia.
Qed.

(** A walk that ends does not come back to an item it started from. *)
Lemma walk_not_self fuel (d : Dict.t item) x l :
  (forall k it, Dict.get d k = Some it -> id it = k) ->
  Dict.get d (id x) = Some x ->
  walk fuel d (parent x) = Done l -> ~ In (id x) (map id l).
Proof.
  intros S G W I. apply in_map_iff in I as (a & E & I).
  pose proof (walk_elements _ _ _ _ _ S W I) as Ga.
  rewrite E, G in Ga. injection Ga as ->.
  destruct (walk_suffix _ _ _ _ _ W I) as (l' & W' & Hl).
  rewrite W in W'. injection W' as <-. lia.
Qed.

(** The only exception of a walk is the [KeyError] of a parent value
    that is neither the sentinel nor a key. *)
Lemma walk_fail_key fuel (d : Dict.t item) p e :
  walk fuel d p = Fail e ->
  exists k, e = KeyError k /\ k <> root /\ Dict.get d k = None.
Proof.
  revert p. induction fuel as [|fuel IH]; intro p; simpl; [discriminate|].
  eqb_cases p root; [discriminate|].
  destruct (Dict.get d p) as [it|] eqn:G.
  - destruct (walk fuel d (parent it)) as [l0| |] eqn:W; try discriminate.
    intro H. injection H as <-. eapply IH; eassumption.
  - intro H. injection H as <-. eauto.
Qed.

(** Links followed from an id that a walk ends on lead to ids with a
    strictly shorter walk. *)
Lemma link_target_not_root (d : Dict.t item) a b :
  clos_trans pyval (dict_link d) a b -> b <> root.
Proof.
  induction 1 as [a b (it & _ & _ & N)|]; assumption.
Qed.

Lemma walk_along_links fuel (d : Dict.t item) a b :
  clos_trans pyval (dict_link d) a b -> a <> root ->
  forall l, walk fuel d a = Done l ->
  exists l', walk fuel d b = Done l' /\ List.length l' < List.length l.
Proof.
  induction 1 as [a b (it & G & P & N)|a b c T1 IH1 T2 IH2]; intros Na l W.
  - destruct (walk_step _ _ _ _ W Na) as (it' & l' & G' & -> & W').
    rewrite G in G'. injection G' as <-. rewrite P in W'.
    exists l'. split; [assumption | simpl; lia].
  - destruct (IH1 Na l W) as (l1 & W1 & H1).
    destruct (IH2 (link_target_not_root _ _ _ T1) l1 W1) as (l2 & W2 & H2).
    exists l2. split; [assumption | lia].
Qed.

(** No walk from an id on a cycle ends. *)
Lemma walk_on_cycle fuel (d : Dict.t item) x l :
  clos_trans pyval (dict_link d) x x -> walk fuel d x <> Done l.
Proof.
  intros T W.
  destruct (walk_along_links fuel d x x T (link_target_not_root _ _ _ T) l W)
    as (l' & W' & H).
  rewrite W in W'. injection W' as <-. lia.
Qed.

Section Ends.
Variable d : Dict.t item.
Hypothesis no_cycle : forall x, ~ clos_trans pyval (dict_link d) x x.

(** Without a cycle the walk is over within [length d] loop tests,
    with a list or with a [KeyError]. *)
Lemma walk_ends_from fuel (seen : list pyval) cur itc :
  NoDup seen ->
  (forall s, In s seen -> In s (Dict.keys d)) ->
  (forall s, In s seen ->
             s = cur \/ clos_trans pyval (dict_link d) s cur) ->
  Dict.get d cur = Some itc ->
  List.length d < List.length seen + fuel ->
  walk fuel d (parent itc) <> OutOfFuel.
Proof.
  revert seen cur itc.
  induction fuel as [|fuel IH]; intros seen cur itc N K R G L.
  - exfalso.
    pose proof (NoDup_incl_length N K) as B.
    unfold Dict.keys in B. rewrite length_map in B. lia.
  - simpl. eqb_cases (parent itc) root; [discriminate|].
    destruct (Dict.get d (parent itc)) as [itp|] eqn:Gp; [|discriminate].
    assert (step : dict_link d cur (parent itc)) by (exists itc; auto).
    assert (fresh : ~ In (parent itc) seen).
    { intro I. apply (no_cycle cur).
      destruct (R _ I) as [Q|T].
      - rewrite Q in step. now apply t_step.
      - eapply t_trans; [apply t_step; eassumption | assumption]. }
    assert (W : walk fuel d (parent itp) <> OutOfFuel).
    { apply (IH (parent itc :: seen) (parent itc) itp).
      - now constructor.
      - intros s [<-|I]; [eapply get_Some_keys; eassumption | auto].
      - intros s [<-|I]; [now left | right].
        destruct (R _ I) as [Q|T]; [subst s; now apply t_step|].
        eapply t_trans; [eassumption | now apply t_step].
      - assumption.
      - simpl. lia. }
    destruct (walk fuel d (parent itp)); try discriminate. contradiction.
Qed.

Lemma walk_ends fuel key it :
  Dict.get d key = Some it -> List.length d <= fuel ->
  walk fuel d (parent it) <> OutOfFuel.
Proof.
  intros G L.
  apply (walk_ends_from fuel [key] key it); auto.
  - constructor; [intros []|constructor].
  - intros s [<-|[]]. eapply get_Some_keys; eassumption.
  - intros s [<-|[]]. now left.
  - simpl. lia.
Qed.
End Ends.

(** *** The outer loop, when it does not return a dictionary *)

Lemma for_keys_fail_inv fuel (d : Dict.t item) ks acc e :
  for_keys fuel d ks acc = Fail e ->
  exists k, In k ks
    /\ ((Dict.get d k = None /\ e = KeyError k)
        \/ exists it, Dict.get d k = Some it
                      /\ walk fuel d (parent it) = Fail e).
Proof.
  revert acc. induction ks as [|k ks IH]; intros acc; simpl; [discriminate|].
  destruct (Dict.get d k) as [it|] eqn:G.
  - rewrite while_loop_walk.
    destruct (walk fuel d (parent it)) as [l|e'|] eqn:W; try discriminate.
    + intro H. destruct (IH _ H) as (k' & I & C). exists k'. auto.
    + intro H. injection H as <-. exists k. split; [now left|].
      right. exists it. rewrite G. auto.
  - intro H. injection H as <-. exists k. split; [now left|]. left.
    rewrite G. auto.
Qed.

Lemma for_keys_out_of_fuel_inv fuel (d : Dict.t item) ks acc :
  for_keys fuel d ks acc = OutOfFuel ->
  exists k it, In k ks /\ Dict.get d k = Some it
               /\ walk fuel d (parent it) = OutOfFuel.
Proof.
  revert acc. induction ks as [|k ks IH]; intros acc; simpl; [discriminate|].
  destruct (Dict.get d k) as [it|] eqn:G; [|discriminate].
  rewrite while_loop_walk.
  destruct (walk fuel d (parent it)) as [l|e'|] eqn:W; try discriminate.
  - intro H. destruct (IH _ H) as (k' & it' & I & C).
    exists k', it'. auto.
  - intros _. exists k, it. rewrite G. auto.
Qed.

End WalkMore.

(** ** Construction on inputs that break the invariants *)

Section InitMore.
Import DictFacts DefaultDictFacts.

Lemma init_unfold fuel (its : list item) :
  TreeStore_init fuel its
  = match for_keys fuel (fst (_createDictsForItems its))
            (Dict.keys (fst (_createDictsForItems its))) Dict.empty with
    | Done r =>
        Done (mkTreeStore its (fst (_createDictsForItems its))
                (snd (_createDictsForItems its)) r)
    | Fail e => Fail e
    | OutOfFuel => OutOfFuel
    end.
Proof.
  unfold TreeStore_init, _calculateParents.
  now destruct (_createDictsForItems its).
Qed.

Lemma itemId_id (its : list item) k it :
  Dict.get (fst (_createDictsForItems its)) k = Some it -> id it = k.
Proof. intro G. now apply itemId_sound in G. Qed.

Lemma walk_closed_no_fail fuel (d : Dict.t item) k it e :
  (forall k it, Dict.get d k = Some it -> parent it <> root ->
                exists p, Dict.get d (parent it) = Some p) ->
  Dict.get d k = Some it -> walk fuel d (parent it) <> Fail e.
Proof.
  intro closed. revert k it.
  induction fuel as [|fuel IH]; intros k it G; simpl; [discriminate|].
  eqb_cases (parent it) root; [discriminate|].
  destruct (closed _ _ G E) as [p Gp]. rewrite Gp.
  specialize (IH _ _ Gp).
  destruct (walk fuel d (parent p)); try discriminate.
  intro H. injection H as ->. contradiction.
Qed.

Lemma last_link {A} (R : relation A) a b :
  clos_trans A R a b -> exists y, R y b.
Proof.
  induction 1 as [a b H|a b c _ _ _ IH]; [eauto | assumption].
Qed.

Lemma parent_link_dict_link (its : list item) c p :
  unique_ids its -> parent_link its c p ->
  dict_link (fst (_createDictsForItems its)) c p.
Proof.
  intros U (it & I & <- & P & N). exists it.
  split; [now apply itemId_complete | auto].
Qed.

Lemma cycle_in_dict (its : list item) a b :
  unique_ids its -> clos_trans pyval (parent_link its) a b ->
  clos_trans pyval (dict_link (fst (_createDictsForItems its))) a b.
Proof.
  intros U T. induction T as [a b L|a b c _ IH1 _ IH2].
  - apply t_step. now apply parent_link_dict_link.
  - eapply t_trans; eassumption.
Qed.

(** A store was returned: every walk ended. *)
Lemma init_done_walk fuel (its : list item) ts k it :
  TreeStore_init fuel its = Done ts ->
  Dict.get (fst (_createDictsForItems its)) k = Some it ->
  walk fuel (fst (_createDictsForItems its)) (parent it)
  = Done (DefaultDict.lookup (idAllParents ts) k).
Proof.
  intros H G. destruct (init_inv _ _ _ H) as (_ & Ed & _).
  rewrite <- Ed in *. now apply init_ancestors with its.
Qed.

Lemma init_not_done_on_cycle fuel (its : list item) ts x :
  unique_ids its -> clos_trans pyval (parent_link its) x x ->
  TreeStore_init fuel its <> Done ts.
Proof.
  intros U T H. apply (cycle_in_dict its _ _ U) in T.
  destruct (last_link _ _ _ T) as (y & ity & G & P & N).
  pose proof (init_done_walk _ _ _ _ _ H G) as W.
  rewrite P in W. exact (walk_on_cycle _ _ _ _ T W).
Qed.

Lemma init_done_no_dangling fuel (its : list item) ts :
  unique_ids its -> TreeStore_init fuel its = Done ts -> no_dangling its.
Proof.
  intros U H it I.
  destruct (pyval_eq_dec (parent it) root) as [R|N]; [now left | right].
  pose proof (init_done_walk _ _ _ _ _ H (itemId_complete its it U I)) as W.
  destruct (walk_step _ _ _ _ W N) as (p & l' & Gp & _ & _).
  apply itemId_sound in Gp as [Ip Ep].
  exists p. split; [assumption|]. split; [|assumption].
  intros ->.
  apply (init_not_done_on_cycle fuel its ts (id it) U); [|assumption].
  apply t_step. exists it.
  split; [assumption|]. split; [reflexivity|].
  split; [now symmetry | now rewrite Ep].
Qed.

End InitMore.

(** X1. With unique ids and no cycle, an item whose parent is neither
    the sentinel nor the id of an item makes construction raise
    [KeyError] (it does not loop): for every bound of at least
    [len(items)] loop tests the outcome is [KeyError k] for a [k] that
    is not the sentinel and is the id of no item. *)
Theorem dangling_parent_raises_KeyError
  (its : list item) (x : item) (fuel : nat) :
  unique_ids its -> acyclic its ->
  In x its -> parent x <> root -> ~ In (parent x) (map id its) ->
  List.length its <= fuel ->
  exists k,
    TreeStore_init fuel its = Fail (KeyError k)
    /\ k <> root /\ ~ In k (map id its).
Proof.
  intros U A I N M L. rewrite init_unfold.
  pose proof (itemId_complete its x U I) as Gx.
  destruct (for_keys _ _ _ _) as [r|e|] eqn:F.
  - exfalso.
    assert (H : TreeStore_init fuel its
                = Done (mkTreeStore its (fst (_createDictsForItems its))
                          (snd (_createDictsForItems its)) r))
      by (rewrite init_unfold, F; reflexivity).
    pose proof (init_done_walk _ _ _ _ _ H Gx) as W.
    destruct (walk_step _ _ _ _ W N) as (p & l' & Gp & _ & _).
    apply itemId_sound in Gp as [Ip Ep]. apply M. rewrite <- Ep.
    now apply in_map.
  - apply for_keys_fail_inv in F as (k & Ik & [[G _]|(it & G & W)]).
    + apply DictFacts.keys_get in Ik as [v Gv]. congruence.
    + apply walk_fail_key in W as (k' & -> & Nk & Gk).
      exists k'. repeat split; auto.
      now apply itemId_None_iff.
  - exfalso.
    apply for_keys_out_of_fuel_inv in F as (k & it & Ik & G & W).
    revert W. apply (walk_ends _ (acyclic_dict its A) fuel k it G).
    pose proof (itemId_length its). lia.
Qed.

Lemma dangling_parent_raises_KeyError_witness :
  exists k,
    TreeStore_init 1 dangling_items = Fail (KeyError k)
    /\ k <> root /\ ~ In k (map id dangling_items).
Proof.
  apply (dangling_parent_raises_KeyError dangling_items
           (mkItem (VInt 1) (VInt 9) []) 1).
  - apply distinctb_NoDup. vm_compute. reflexivity.
  - apply (ranked_acyclic (fun v => 10 - int_rank v)). vm_compute.
    reflexivity.
  - simpl. tauto.
  - discriminate.
  - simpl. intuition discriminate.
  - simpl. lia.
Defined.

(** X2. With unique ids, a cycle among the parent links keeps
    construction from ever returning a store; when moreover no parent
    is dangling it raises nothing either: whatever the bound, the
    loop is still running. *)
Theorem cycle_never_returns (its : list item) (x : pyval) :
  unique_ids its -> clos_trans pyval (parent_link its) x x ->
  (forall fuel ts, TreeStore_init fuel its <> Done ts)
  /\ (no_dangling its -> forall fuel, TreeStore_init fuel its = OutOfFuel).
Proof.
  intros U T. split.
  - intros fuel ts. now apply (init_not_done_on_cycle fuel its ts x).
  - intros D fuel.
    destruct (TreeStore_init fuel its) as [ts|e|] eqn:H; [| |reflexivity].
    + exfalso. now apply (init_not_done_on_cycle fuel its ts x U T).
    + exfalso. rewrite init_unfold in H.
      destruct (for_keys _ _ _ _) as [r|e'|] eqn:F; try discriminate.
      injection H as ->.
      apply for_keys_fail_inv in F as (k & Ik & [[G _]|(it & G & W)]).
      * apply DictFacts.keys_get in Ik as [v Gv]. congruence.
      * revert W. apply (walk_closed_no_fail fuel _ k it e); [|assumption].
        now apply closed_dict.
Qed.

Lemma cycle_never_returns_witness :
  (forall fuel ts, TreeStore_init fuel cyclic_items <> Done ts)
  /\ (forall fuel, TreeStore_init fuel cyclic_items = OutOfFuel).
Proof.
  assert (U : unique_ids cyclic_items)
    by (apply distinctb_NoDup; vm_compute; reflexivity).
  assert (T : clos_trans pyval (parent_link cyclic_items) (VInt 1) (VInt 1)).
  { apply t_trans with (VInt 2); apply t_step.
    - exists (mkItem (VInt 1) (VInt 2) []). simpl.
      repeat split; try tauto; discriminate.
    - exists (mkItem (VInt 2) (VInt 1) []). simpl.
      repeat split; try tauto; discriminate. }
  destruct (cycle_never_returns cyclic_items (VInt 1) U T) as [A B].
  split; [exact A|].
  apply B. apply no_danglingb_sound. vm_compute. reflexivity.
Defined.

(** X3. With unique ids, construction returns a store for some bound
    exactly when no parent is dangling and the parent links have no
    cycle. *)
Theorem construction_returns_iff (its : list item) :
  unique_ids its ->
  ((exists fuel ts, TreeStore_init fuel its = Done ts)
   <-> no_dangling its /\ acyclic its).
Proof.
  intro U. split.
  - intros (fuel & ts & H). split.
    + now apply (init_done_no_dangling fuel its ts).
    + intros x T. now apply (init_not_done_on_cycle fuel its ts x U T).
  - intros [D A]. exists (List.length its).
    now apply init_terminates.
Qed.

Lemma construction_returns_iff_witness :
  (exists fuel ts, TreeStore_init fuel test_items = Done ts)
  <-> no_dangling test_items /\ acyclic test_items.
Proof.
  apply (construction_returns_iff test_items).
  apply distinctb_NoDup. vm_compute. reflexivity.
Defined.

(** ** Ancestors, children and the id mapping on a constructed store *)

Section StoreMore.
Import DictFacts DefaultDictFacts.

Lemma getItem_Ok_inv ts X x :
  fst (getItem ts X) = Ok x -> Dict.get (itemId ts) X = Some x.
Proof.
  destruct (Dict.get (itemId ts) X) as [x'|] eqn:G.
  - rewrite (getItem_present _ _ _ G). simpl. congruence.
  - rewrite (getItem_absent _ _ G). discriminate.
Qed.

Lemma getAllParents_Ok_inv ts X l :
  fst (getAllParents ts X) = Ok l ->
  exists x, Dict.get (itemId ts) X = Some x
            /\ l = DefaultDict.lookup (idAllParents ts) X.
Proof.
  destruct (Dict.get (itemId ts) X) as [x|] eqn:G.
  - rewrite (getAllParents_present _ _ _ G). intro H.
    injection H as <-. eauto.
  - rewrite (getAllParents_absent _ _ G). discriminate.
Qed.


Lemma set_absent {V} (d : Dict.t V) k v :
  Dict.get d k = None -> Dict.set d k v = d ++ [(k, v)].
Proof.
  induction d as [|[k' v'] d IH]; simpl; [reflexivity|].
  destruct (pyval_eqb k' k); [discriminate|].
  intro H. now rewrite IH.
Qed.







Lemma chain_nonempty_not_root (its : list item) p a l :
  ancestor_chain its p (a :: l) -> p <> root.
Proof. intro C. now inversion C. Qed.

(** The ids of a chain are reached from its start by parent links. *)
Lemma chain_reach (its : list item) p l :
  ancestor_chain its p l ->
  forall a, In a l ->
    id a = p \/ clos_trans pyval (parent_link its) p (id a).
Proof.
  induction 1 as [|p it l N I E C IH]; intros a [].
  - subst. now left.
  - right.
    assert (L : parent_link its p (parent it)).
    { exists it. repeat split; auto.
      destruct l as [|b l]; [contradiction|].
      now apply chain_nonempty_not_root in C. }
    destruct (IH a H) as [Q|T].
    + rewrite Q. now apply t_step.
    + eapply t_trans; [apply t_step; eassumption | assumption].
Qed.

(** Every id reached by parent links is in the chain. *)
Lemma reach_chain (its : list item) c y :
  unique_ids its ->
  clos_trans_1n pyval (parent_link its) c y ->
  forall x l, In x its -> id x = c ->
    ancestor_chain its (parent x) l -> In y (map id l).
Proof.
  intro U.
  induction 1 as [c y (it & I & E & P & N)|c q y (it & I & E & P & N) T IH];
    intros x l Ix Ex C.
  - assert (it = x) by (apply (unique_ids_inj its); congruence). subst it.
    rewrite P in C. inversion C; subst; [congruence|].
    simpl. now left.
  - assert (it = x) by (apply (unique_ids_inj its); congruence). subst it.
    rewrite P in C. inversion C as [|? p l' _ Ip Ep C']; subst;
      [congruence|].
    simpl. right. now apply (IH p l').
Qed.

End StoreMore.

(** X4. On a constructed store, the ancestors of a non-root item are
    its parent item followed by the ancestors of that parent:
    if [getItem X] is [x] and [x]'s parent is not the sentinel, then
    [getAllParents X = getItem (parent x) :: getAllParents (parent x)]. *)
Theorem getAllParents_unfolds
  (its : list item) (fuel : nat) (ts : TreeStore) (X : pyval) (x : item) :
  TreeStore_init fuel its = Done ts ->
  fst (getItem ts X) = Ok x -> parent x <> root ->
  exists p a,
    fst (getItem ts (parent x)) = Ok p
    /\ fst (getAllParents ts (parent x)) = Ok a
    /\ fst (getAllParents ts X) = Ok (p :: a).
Proof.
  intros H Gx N. apply getItem_Ok_inv in Gx.
  pose proof (init_ancestors _ _ _ _ _ H Gx) as W.
  destruct (walk_step _ _ _ _ W N) as (p & l' & Gp & E & W').
  pose proof (init_ancestors _ _ _ _ _ H Gp) as Wp.
  rewrite W' in Wp. injection Wp as ->.
  exists p, (DefaultDict.lookup (idAllParents ts) (parent x)).
  rewrite (getItem_present _ _ _ Gp), (getAllParents_present _ _ _ Gp),
    (getAllParents_present _ _ _ Gx), E.
  auto.
Qed.

Lemma getAllParents_unfolds_witness :
  exists p a,
    fst (getItem test_store (VInt 4)) = Ok p
    /\ fst (getAllParents test_store (VInt 4)) = Ok a
    /\ fst (getAllParents test_store (VInt 7)) = Ok (p :: a).
Proof.
  apply (getAllParents_unfolds test_items 8 test_store (VInt 7) item7).
  - vm_compute. reflexivity.
  - vm_compute. reflexivity.
  - discriminate.
Defined.

(** X5. On a constructed store, whatever the input was, a list
    returned by [getAllParents X] holds input items only, holds no id
    twice, does not hold [X] itself, and is shorter than the input. *)
Theorem getAllParents_distinct_bounded
  (its : list item) (fuel : nat) (ts : TreeStore) (X : pyval)
  (l : list item) :
  TreeStore_init fuel its = Done ts ->
  fst (getAllParents ts X) = Ok l ->
  (forall a, In a l -> In a its)
  /\ NoDup (map id l)
  /\ ~ In X (map id l)
  /\ List.length l < List.length its.
Proof.
  intros H R. apply getAllParents_Ok_inv in R as (x & Gx & ->).
  pose proof (init_ancestors _ _ _ _ _ H Gx) as W.
  destruct (init_inv _ _ _ H) as (_ & Ed & _).
  assert (S : forall k it, Dict.get (itemId ts) k = Some it -> id it = k).
  { intros k it G. rewrite Ed in G. now apply itemId_id in G. }
  pose proof (S _ _ Gx) as Ex.
  assert (El : forall a,
             In a (DefaultDict.lookup (idAllParents ts) X) ->
             Dict.get (itemId ts) (id a) = Some a).
  { intros a I. exact (walk_elements _ _ _ _ _ S W I). }
  assert (ND : NoDup (map id (DefaultDict.lookup (idAllParents ts) X)))
    by exact (walk_ids_NoDup _ _ _ _ S W).
  assert (NS : ~ In X (map id (DefaultDict.lookup (idAllParents ts) X))).
  { clear El ND. subst X. now apply (walk_not_self fuel (itemId ts)). }
  split; [|split; [|split]]; auto.
  - intros a I. apply El in I. rewrite Ed in I.
    now apply itemId_sound in I.
  - assert (B : List.length
                  (X :: map id (DefaultDict.lookup (idAllParents ts) X))
                <= List.length (Dict.keys (itemId ts))).
    { apply NoDup_incl_length; [now constructor|].
      intros k [<-|I].
      - eapply DictFacts.get_Some_keys; eassumption.
      - apply in_map_iff in I as (a & <- & I).
        eapply DictFacts.get_Some_keys. now apply El. }
    simpl in B. unfold Dict.keys in B. rewrite !length_map in B.
    rewrite Ed in B. pose proof (itemId_length its). lia.
Qed.

Lemma getAllParents_distinct_bounded_witness :
  (forall a, In a [item4; item2; item1] -> In a test_items)
  /\ NoDup (map id [item4; item2; item1])
  /\ ~ In (VInt 7) (map id [item4; item2; item1])
  /\ List.length [item4; item2; item1] < List.length test_items.
Proof.
  apply (getAllParents_distinct_bounded test_items 8 test_store (VInt 7)).
  - vm_compute. reflexivity.
  - vm_compute. reflexivity.
Defined.

(** X6. On an input satisfying the Data Model invariants, an item [c]
    is among [getChildren] of the id of an item [x] exactly when
    [getAllParents] of [c]'s id starts with [x]. *)
Theorem children_ancestors_agree
  (its : list item) (c x : item) (fuel : nat) :
  valid its -> In c its -> In x its -> List.length its <= fuel ->
  exists ts ch an,
    TreeStore_init fuel its = Done ts
    /\ fst (getChildren ts (id x)) = Ok ch
    /\ fst (getAllParents ts (id c)) = Ok an
    /\ (In c ch <-> nth_error an 0 = Some x).
Proof.
  intros V Ic Ix L.
  destruct (getChildren_filter_aux its (id x) fuel V
              (in_map id _ _ Ix) L) as (ts & H & Hc).
  destruct (init_inv _ _ _ H) as (_ & Ed & _).
  assert (Gc : Dict.get (itemId ts) (id c) = Some c).
  { rewrite Ed. apply itemId_complete; [apply V | assumption]. }
  assert (Gx : Dict.get (itemId ts) (id x) = Some x).
  { rewrite Ed. apply itemId_complete; [apply V | assumption]. }
  pose proof (init_ancestors _ _ _ _ _ H Gc) as W.
  exists ts, (filter (fun it => pyval_eqb (parent it) (id x)) its),
    (DefaultDict.lookup (idAllParents ts) (id c)).
  split; [assumption|]. split; [assumption|].
  split; [now apply getAllParents_present with c|].
  rewrite filter_In, pyval_eqb_eq. split.
  - intros [_ P].
    assert (N : parent c <> root).
    { rewrite P. now apply (valid_sentinel its V). }
    destruct (walk_step _ _ _ _ W N) as (p & l' & Gp & -> & _).
    rewrite P, Gx in Gp. injection Gp as <-. reflexivity.
  - intro Hd. split; [assumption|].
    destruct (pyval_eq_dec (parent c) root) as [R|N].
    + rewrite R in W. apply walk_at_root in W. rewrite W in Hd.
      discriminate.
    + destruct (walk_step _ _ _ _ W N) as (p & l' & Gp & E & _).
      rewrite E in Hd. simpl in Hd. injection Hd as ->.
      rewrite Ed in Gp. now apply itemId_id in Gp.
Qed.

Lemma children_ancestors_agree_witness :
  exists ts ch an,
    TreeStore_init 8 test_items = Done ts
    /\ fst (getChildren ts (id item4)) = Ok ch
    /\ fst (getAllParents ts (id item7)) = Ok an
    /\ (In item7 ch <-> nth_error an 0 = Some item4).
Proof.
  apply (children_ancestors_agree test_items item7 item4 8).
  - apply (validb_sound int_rank). vm_compute. reflexivity.
  - simpl. tauto.
  - simpl. tauto.
  - simpl. lia.
Defined.



(** X8. When the ids of the input are unique, the id mapping built by
    [_createDictsForItems] lists the input items in input order, each
    under its id; so [for key in itemId] visits the ids in input
    order. *)
Theorem itemId_lists_input (its : list item) :
  unique_ids its ->
  fst (_createDictsForItems its) = map (fun it => (id it, it)) its
  /\ Dict.keys (fst (_createDictsForItems its)) = map id its.
Proof.
  intro U.
  assert (E : fst (_createDictsForItems its)
              = map (fun it => (id it, it)) its).
  { induction its as [|a its IH] using rev_ind; [reflexivity|].
    unfold unique_ids in U. rewrite map_app in U. simpl in U.
    rewrite createDicts_snoc, map_app. simpl.
    assert (U' : unique_ids its) by (eapply NoDup_app_remove_r; eassumption).
    rewrite set_absent; [now rewrite IH|].
    apply itemId_None_iff. intro I.
    apply NoDup_remove_2 in U. apply U. rewrite app_nil_r. assumption. }
  split; [assumption|].
  rewrite E. unfold Dict.keys. rewrite map_map. reflexivity.
Qed.

Lemma itemId_lists_input_witness :
  fst (_createDictsForItems test_items)
  = map (fun it => (id it, it)) test_items
  /\ Dict.keys (fst (_createDictsForItems test_items)) = map id test_items.
Proof.
  apply (itemId_lists_input test_items).
  apply distinctb_NoDup. vm_compute. reflexivity.
Defined.

(** X9. On every constructed store, duplicate ids or not,
    [getChildren] on an existing id [X] returns all the input items
    whose parent is [X], in input order; an item that a later item
    with the same id replaced in the id mapping is still listed. *)
Theorem getChildren_keeps_every_item
  (its : list item) (fuel : nat) (ts : TreeStore) (X : pyval) :
  TreeStore_init fuel its = Done ts -> In X (map id its) ->
  fst (getChildren ts X)
  = Ok (filter (fun it => pyval_eqb (parent it) X) its).
Proof.
  intros H I. destruct (init_inv _ _ _ H) as (_ & Ed & Ep & _).
  apply in_map_iff in I as (x & <- & I).
  destruct (itemId_present its x I) as [x' G]. rewrite <- Ed in G.
  rewrite (getChildren_present ts _ _ G), Ep.
  now rewrite parentChild_lookup.
Qed.

Lemma getChildren_keeps_every_item_witness :
  exists ts,
    TreeStore_init 3 dup_items = Done ts
    /\ fst (getChildren ts (VInt 1)) = Ok [mkItem (VInt 2) (VInt 1) []].
Proof.
  eexists. split; [vm_compute; reflexivity|].
  apply (getChildren_keeps_every_item dup_items 3 _ (VInt 1)).
  - vm_compute. reflexivity.
  - simpl. tauto.
Defined.

(** X12. On an input satisfying the Data Model invariants, the ids of
    the items returned by [getAllParents] on the id of an item [x] are
    exactly the ids reached from [x]'s id by following one or more
    non-root parent links. *)
Theorem getAllParents_reachable
  (its : list item) (x : item) (fuel : nat) :
  valid its -> In x its -> List.length its <= fuel ->
  exists ts l,
    TreeStore_init fuel its = Done ts
    /\ fst (getAllParents ts (id x)) = Ok l
    /\ forall y, In y (map id l)
                 <-> clos_trans pyval (parent_link its) (id x) y.
Proof.
  intros V I L.
  destruct (built_from_valid its fuel V L) as [ts H].
  destruct (init_inv _ _ _ H) as (_ & Ed & _).
  assert (G : Dict.get (itemId ts) (id x) = Some x).
  { rewrite Ed. apply itemId_complete; [apply V | assumption]. }
  pose proof (init_ancestors _ _ _ _ _ H G) as W.
  exists ts, (DefaultDict.lookup (idAllParents ts) (id x)).
  split; [assumption|].
  split; [now apply getAllParents_present with x|].
  assert (Ch : ancestor_chain its (parent x)
                 (DefaultDict.lookup (idAllParents ts) (id x))).
  { eapply walk_chain; [|exact W].
    intros k it Gk. rewrite Ed in Gk. now apply itemId_sound. }
  intro y. split.
  - intro Iy. apply in_map_iff in Iy as (a & <- & Ia).
    assert (Lk : parent_link its (id x) (parent x)).
    { exists x. repeat split; auto.
      destruct (DefaultDict.lookup (idAllParents ts) (id x)) as [|b l];
        [contradiction|].
      now apply chain_nonempty_not_root in Ch. }
    destruct (chain_reach its _ _ Ch a Ia) as [Q|T].
    + rewrite Q. now apply t_step.
    + eapply t_trans; [apply t_step; eassumption | assumption].
  - intro T. apply clos_trans_t1n in T.
    exact (reach_chain its (id x) y (valid_unique its V) T x _ I eq_refl Ch).
Qed.

Lemma getAllParents_reachable_witness :
  exists ts l,
    TreeStore_init 8 test_items = Done ts
    /\ fst (getAllParents ts (id item7)) = Ok l
    /\ forall y, In y (map id l)
                 <-> clos_trans pyval (parent_link test_items) (id item7) y.
Proof.
  apply (getAllParents_reachable test_items item7 8).
  - apply (validb_sound int_rank). vm_compute. reflexivity.
  - simpl. tauto.
  - simpl. lia.
Defined.
